(** * encode.py: command assembly and dispatch for the multi-resolution encoder

    A shallow embedding of [encode.py].  The script parses its command line
    with [argparse], picks encoding profiles from a built-in table, builds one
    [ffmpeg] argument list per profile and runs them one after the other.

    - Python [str] is [string], the bytes of its UTF-8 encoding; [int] is
      [Z]; a list of [str] is [list string].
    - A value that [argparse] stores is the converted argument or the empty
      list ([arg_value], [int_value]); [None]-or-value is an [option].
    - The insertion-ordered [dict] of profiles is an association list.
    - Output, child processes and [sys.exit] are threaded through a small
      trace-and-exit monad. *)

From Stdlib Require Import String Ascii List ZArith Bool Lia Permutation.
From Stdlib Require Import DecimalString.
Import ListNotations.
Open Scope Z_scope.
Open Scope string_scope.
Open Scope list_scope.

(** ** Python primitives used by the script *)

(** [str(n)] for an [int]. *)
Definition str_of_int (n : Z) : string := NilZero.string_of_int (Z.to_int n).

(** [sep.join(parts)]. *)
Definition join (sep : string) (parts : list string) : string :=
  String.concat sep parts.

(** The line feed of ["Running FFmpeg:\n"]. *)
Definition LF : string := String (ascii_of_nat 10) EmptyString.

(** What [argparse] stores for an option or positional that takes one
    argument string: the string; or the empty list, which is what is left
    when the string is [--] (one [--] is taken out of the strings of an
    action before they are used). *)
Inductive arg_value : Set :=
  | Str (s : string)
  | EmptyList.

Coercion Str : string >-> arg_value.

(** The same for an option with [type=int]. *)
Inductive int_value : Set :=
  | Int (n : Z)
  | EmptyIntList.

Coercion Int : Z >-> int_value.

(** The value as an f-string renders it. *)
Definition format_value (v : arg_value) : string :=
  match v with
  | Str s => s
  | EmptyList => "[]"
  end.

Definition format_int (v : int_value) : string :=
  match v with
  | Int n => str_of_int n
  | EmptyIntList => "[]"
  end.

(** Truth value of [None], a string or the empty list: [None], [''] and
    [[]] are false. *)
Definition truthy (o : option arg_value) : bool :=
  match o with
  | Some (Str s) => negb (s =? "")
  | Some EmptyList => false
  | None => false
  end.

(** An optional value as text. *)
Definition str_value (o : option arg_value) : string :=
  match o with
  | Some v => format_value v
  | None => "None"
  end.

(** ** [encode_video]: the filter chain (lines 11-18) *)

Section EncodeVideo.

Variables (input_file output_file font_path : string).
Variable (text : arg_value).
Variables (x y fontsize : int_value).
Variable (fontcolor : arg_value).
Variables (bitrate audio_bitrate maxrate bufsize pix_fmt : string).
Variable (sample_rate : Z).
Variable (resolution : string).
Variables (soft_sub burn_sub : option arg_value).
Variable (lang : arg_value).

Definition scale_stage : string := "scale=" ++ resolution.

Definition subtitles_stage : string :=
  "subtitles='" ++ str_value burn_sub ++ "'".

Definition drawtext_stage : string :=
  "drawtext=fontfile='" ++ font_path ++ "':text='" ++ format_value text
    ++ "':x=" ++ format_int x ++ ":y=" ++ format_int y
    ++ ":fontsize=" ++ format_int fontsize
    ++ ":fontcolor=" ++ format_value fontcolor.

Definition filters : list string :=
  let filters := [scale_stage] in
  let filters :=
    if truthy burn_sub then filters ++ [subtitles_stage] else filters in
  filters ++ [drawtext_stage].

Definition filter_complex : string := join "," filters.

(** ** [encode_video]: the argument list (lines 20-70)

    Every element is a [str] when [pix_fmt] is one; [pix_fmt] is the one
    parameter that goes into the list as it is. *)

Definition ffmpeg_cmd : list string :=
  let ffmpeg_cmd := ["ffmpeg"; "-threads"; "0"; "-i"; input_file] in
  let ffmpeg_cmd :=
    if truthy soft_sub then ffmpeg_cmd ++ ["-i"; str_value soft_sub]
    else ffmpeg_cmd in
  let ffmpeg_cmd := ffmpeg_cmd ++ ["-vf"; filter_complex] in
  let ffmpeg_cmd := ffmpeg_cmd ++ ["-map"; "0:v"; "-map"; "0:a"] in
  let ffmpeg_cmd :=
    if truthy soft_sub then ffmpeg_cmd ++ ["-map"; "1:0"] else ffmpeg_cmd in
  let ffmpeg_cmd :=
    ffmpeg_cmd ++
      ["-c:v"; "libx264";
       "-profile:v"; "high";
       "-pix_fmt"; pix_fmt;
       "-b:v"; bitrate;
       "-maxrate"; maxrate;
       "-bufsize"; bufsize;
       "-preset"; "medium"] in
  let ffmpeg_cmd :=
    ffmpeg_cmd ++
      ["-c:a"; "aac";
       "-b:a"; audio_bitrate;
       "-ar"; str_of_int sample_rate;
       "-ac"; "2"] in
  let ffmpeg_cmd :=
    if truthy soft_sub
    then ffmpeg_cmd ++ ["-c:s"; "mov_text";
                        "-metadata:s:s:0";
                        ("language=" ++ format_value lang)%string]
    else ffmpeg_cmd in
  ffmpeg_cmd ++
    ["-map_metadata"; "-1";
     "-map_chapters"; "-1";
     "-movflags"; "+faststart";
     "-dn";
     output_file].

End EncodeVideo.

(** ** The command line (lines 83-105)

    [argparse] as the script configures it: two positionals, ten options
    and the help option that every parser gets.  The behaviour is that of
    the [argparse] module of CPython 3.11.  A token is first classified as
    an option or an argument ([parse_optional]); the parser then walks the
    tokens left to right, handing argument strings to positionals and to the
    options that take them ([consume_optional], [take_store]). *)

(** Where a one-argument option stores its value. *)
Inductive dest : Set :=
  | d_x | d_y | d_fontsize | d_fontcolor | d_pix_fmt
  | d_soft | d_burn | d_lang | d_watermark.

(** The optional actions of the parser: help (no argument), the options
    that store one argument, and [--resolutions] ([nargs='+']). *)
Inductive action : Set :=
  | a_help
  | a_store (d : dest)
  | a_resolutions.

Definition action_eq_dec (a b : action) : {a = b} + {a <> b}.
Proof. repeat decide equality. Defined.

Definition action_eqb (a b : action) : bool :=
  if action_eq_dec a b then true else false.

(** The option strings, in the order the script registers them. *)
Definition option_string_actions : list (string * action) :=
  [("-h", a_help); ("--help", a_help);
   ("--x", a_store d_x); ("--y", a_store d_y);
   ("--fontsize", a_store d_fontsize);
   ("--fontcolor", a_store d_fontcolor); ("--pix_fmt", a_store d_pix_fmt);
   ("--soft", a_store d_soft); ("--burn", a_store d_burn);
   ("--lang", a_store d_lang); ("--watermark", a_store d_watermark);
   ("--resolutions", a_resolutions)].

(** [subs_group]: the members of the mutually exclusive group exclude
    each other. *)
Definition action_conflicts (a : action) : list action :=
  match a with
  | a_store d_soft => [a_store d_burn]
  | a_store d_burn => [a_store d_soft]
  | _ => []
  end.

(** [choices] of [--resolutions]. *)
Definition resolution_choices : list string :=
  ["all"; "1080p"; "720p"; "480p"; "360p"].

Definition str_in (s : string) (l : list string) : bool :=
  existsb (String.eqb s) l.

Fixpoint lookup {V : Type} (k : string) (d : list (string * V)) : option V :=
  match d with
  | [] => None
  | (k', v) :: d' => if (k =? k')%string then Some v else lookup k d'
  end.

(** [s.split('=', 1)] when ['=' in s]. *)
Fixpoint split_eq (s : string) : option (string * string) :=
  match s with
  | EmptyString => None
  | String c s' =>
      if Ascii.eqb c "="%char then Some (EmptyString, s')
      else match split_eq s' with
           | Some (l, r) => Some (String c l, r)
           | None => None
           end
  end.

Fixpoint contains_char (c : ascii) (s : string) : bool :=
  match s with
  | EmptyString => false
  | String c' s' => Ascii.eqb c c' || contains_char c s'
  end.

Definition is_digit (c : ascii) : bool :=
  ((48 <=? nat_of_ascii c) && (nat_of_ascii c <=? 57))%nat.

(** A byte that continues a character of more than one byte. *)
Definition continuation (c : ascii) : bool :=
  ((128 <=? N_of_ascii c) && (N_of_ascii c <=? 191))%N.

Definition low_bits (c : ascii) : N := (N_of_ascii c - 128)%N.

(** The first character of a string, as its code point and the number of
    bytes it takes; [None] where the bytes are no character. *)
Definition decode_char (s : string) : option (N * nat) :=
  match s with
  | EmptyString => None
  | String c0 r0 =>
      let b0 := N_of_ascii c0 in
      if (b0 <? 128)%N then Some (b0, 1%nat)
      else if ((194 <=? b0) && (b0 <=? 223))%N then
        match r0 with
        | String c1 _ =>
            if continuation c1
            then Some (((b0 - 192) * 64 + low_bits c1)%N, 2%nat)
            else None
        | _ => None
        end
      else if ((224 <=? b0) && (b0 <=? 239))%N then
        match r0 with
        | String c1 (String c2 _) =>
            let cp :=
              ((b0 - 224) * 4096 + low_bits c1 * 64 + low_bits c2)%N in
            if continuation c1 && continuation c2 && (2048 <=? cp)%N
               && negb ((55296 <=? cp) && (cp <=? 57343))%N
            then Some (cp, 3%nat)
            else None
        | _ => None
        end
      else if ((240 <=? b0) && (b0 <=? 244))%N then
        match r0 with
        | String c1 (String c2 (String c3 _)) =>
            let cp :=
              ((b0 - 240) * 262144 + low_bits c1 * 4096
               + low_bits c2 * 64 + low_bits c3)%N in
            if continuation c1 && continuation c2 && continuation c3
               && (65536 <=? cp)%N && (cp <=? 1114111)%N
            then Some (cp, 4%nat)
            else None
        | _ => None
        end
      else None
  end.

(** The decimal digits of Unicode 14 (category [Nd]), which is what [\d]
    matches in a [str] pattern: the first digit of each run of ten. *)
Definition decimal_digit_zeros : list N :=
  [48; 1632; 1776; 1984; 2406; 2534; 2662; 2790; 2918; 3046; 3174; 3302;
   3430; 3558; 3664; 3792; 3872; 4160; 4240; 6112; 6160; 6470; 6608; 6784;
   6800; 6992; 7088; 7232; 7248; 42528; 43216; 43264; 43472; 43504; 43600;
   44016; 65296; 66720; 68912; 69734; 69872; 69942; 70096; 70384; 70736;
   70864; 71248; 71360; 71472; 71904; 72016; 72784; 73040; 73120; 92768;
   92864; 93008; 120782; 120792; 120802; 120812; 120822; 123200; 123632;
   125264; 130032]%N.

Definition is_decimal (cp : N) : bool :=
  existsb (fun zero => (zero <=? cp) && (cp <=? zero + 9))%N
          decimal_digit_zeros.

(** The number of bytes of the decimal digit a string starts with; 0 when
    it starts with none. *)
Definition digit_width (s : string) : nat :=
  match decode_char s with
  | Some (cp, n) => if is_decimal cp then n else 0%nat
  | None => 0%nat
  end.

(** [skip] counts the bytes still to pass of the digit being read. *)
Fixpoint drop_digits_from (s : string) (skip : nat) : string :=
  match s with
  | EmptyString => s
  | String _ s' =>
      match skip with
      | S k => drop_digits_from s' k
      | 0%nat =>
          match digit_width s with
          | S k => drop_digits_from s' k
          | 0%nat => s
          end
      end
  end.

(** What is left after the decimal digits a string starts with. *)
Definition drop_digits (s : string) : string := drop_digits_from s 0.

Definition starts_with_digit (s : string) : bool :=
  negb (digit_width s =? 0)%nat.

(** A regular expression's [$]: the end, or a last line feed. *)
Definition at_end (s : string) : bool := (s =? "")%string || (s =? LF)%string.

(** [_negative_number_matcher]: [^-\d+$|^-\d*\.\d+$]. *)
Definition negative_number_like (s : string) : bool :=
  match s with
  | String "-"%char r =>
      let r1 := drop_digits r in
      (starts_with_digit r && at_end r1)
      || match r1 with
         | String "."%char f => starts_with_digit f && at_end (drop_digits f)
         | _ => false
         end
  | _ => false
  end.

(** What [_parse_optional] says about one token. *)
Inductive option_tuple : Set :=
  | Positional
  | Optional (a : option action) (option_string : string)
             (explicit_arg : option string)
  | Ambiguous.

(** [_get_option_tuples]: the registered option strings a token abbreviates. *)
Definition get_option_tuples (option_string : string)
  : list (action * string * option string) :=
  match option_string with
  | String "-"%char (String "-"%char _) =>
      let '(option_prefix, explicit_arg) :=
        match split_eq option_string with
        | Some (p, e) => (p, Some e)
        | None => (option_string, None)
        end in
      flat_map
        (fun '(os, a) =>
           if String.prefix option_prefix os then [(a, os, explicit_arg)]
           else [])
        option_string_actions
  | String "-"%char (String c short_explicit_arg) =>
      let short_option_prefix := String "-"%char (String c EmptyString) in
      flat_map
        (fun '(os, a) =>
           if (os =? short_option_prefix)%string
           then [(a, os, Some short_explicit_arg)]
           else if String.prefix option_string os then [(a, os, None)]
           else [])
        option_string_actions
  | _ => []
  end.

Definition parse_optional (arg_string : string) : option_tuple :=
  match arg_string with
  | EmptyString => Positional
  | String c _ =>
      if negb (Ascii.eqb c "-"%char) then Positional
      else
        match lookup arg_string option_string_actions with
        | Some a => Optional (Some a) arg_string None
        | None =>
            if (String.length arg_string =? 1)%nat then Positional
            else
              let with_eq :=
                match split_eq arg_string with
                | Some (option_string, explicit_arg) =>
                    match lookup option_string option_string_actions with
                    | Some a =>
                        Some (Optional (Some a) option_string
                                       (Some explicit_arg))
                    | None => None
                    end
                | None => None
                end in
              match with_eq with
              | Some t => t
              | None =>
                  match get_option_tuples arg_string with
                  | _ :: _ :: _ => Ambiguous
                  | [(a, os, e)] => Optional (Some a) os e
                  | [] =>
                      if negative_number_like arg_string then Positional
                      else if contains_char " "%char arg_string
                           then Positional
                           else Optional None arg_string None
                  end
              end
        end
  end.

(** The values the options leave in the namespace. *)
Record Options : Set := {
  x : int_value;
  y : int_value;
  fontsize : int_value;
  fontcolor : arg_value;
  pix_fmt : arg_value;
  soft : option arg_value;
  burn : option arg_value;
  lang : arg_value;
  watermark : arg_value;
  resolutions_arg : list string   (* [args.resolutions] *)
}.

(** [args], the result of [parser.parse_args()]. *)
Record Namespace : Set := {
  input : string;
  output : arg_value;
  options :> Options
}.

Definition defaults : Options :=
  {| x := 20; y := 40; fontsize := 30;
     fontcolor := "white@0.5"; pix_fmt := "yuv420p";
     soft := None; burn := None;
     lang := "ar"; watermark := "HALASHOW.COM";
     resolutions_arg := ["all"] |}.

Definition set_x v (o : Options) : Options :=
  {| x := v; y := y o; fontsize := fontsize o; fontcolor := fontcolor o;
     pix_fmt := pix_fmt o; soft := soft o; burn := burn o; lang := lang o;
     watermark := watermark o; resolutions_arg := resolutions_arg o |}.
Definition set_y v (o : Options) : Options :=
  {| x := x o; y := v; fontsize := fontsize o; fontcolor := fontcolor o;
     pix_fmt := pix_fmt o; soft := soft o; burn := burn o; lang := lang o;
     watermark := watermark o; resolutions_arg := resolutions_arg o |}.
Definition set_fontsize v (o : Options) : Options :=
  {| x := x o; y := y o; fontsize := v; fontcolor := fontcolor o;
     pix_fmt := pix_fmt o; soft := soft o; burn := burn o; lang := lang o;
     watermark := watermark o; resolutions_arg := resolutions_arg o |}.
Definition set_fontcolor v (o : Options) : Options :=
  {| x := x o; y := y o; fontsize := fontsize o; fontcolor := v;
     pix_fmt := pix_fmt o; soft := soft o; burn := burn o; lang := lang o;
     watermark := watermark o; resolutions_arg := resolutions_arg o |}.
Definition set_pix_fmt v (o : Options) : Options :=
  {| x := x o; y := y o; fontsize := fontsize o; fontcolor := fontcolor o;
     pix_fmt := v; soft := soft o; burn := burn o; lang := lang o;
     watermark := watermark o; resolutions_arg := resolutions_arg o |}.
Definition set_soft v (o : Options) : Options :=
  {| x := x o; y := y o; fontsize := fontsize o; fontcolor := fontcolor o;
     pix_fmt := pix_fmt o; soft := v; burn := burn o; lang := lang o;
     watermark := watermark o; resolutions_arg := resolutions_arg o |}.
Definition set_burn v (o : Options) : Options :=
  {| x := x o; y := y o; fontsize := fontsize o; fontcolor := fontcolor o;
     pix_fmt := pix_fmt o; soft := soft o; burn := v; lang := lang o;
     watermark := watermark o; resolutions_arg := resolutions_arg o |}.
Definition set_lang v (o : Options) : Options :=
  {| x := x o; y := y o; fontsize := fontsize o; fontcolor := fontcolor o;
     pix_fmt := pix_fmt o; soft := soft o; burn := burn o; lang := v;
     watermark := watermark o; resolutions_arg := resolutions_arg o |}.
Definition set_watermark v (o : Options) : Options :=
  {| x := x o; y := y o; fontsize := fontsize o; fontcolor := fontcolor o;
     pix_fmt := pix_fmt o; soft := soft o; burn := burn o; lang := lang o;
     watermark := v; resolutions_arg := resolutions_arg o |}.
Definition set_resolutions v (o : Options) : Options :=
  {| x := x o; y := y o; fontsize := fontsize o; fontcolor := fontcolor o;
     pix_fmt := pix_fmt o; soft := soft o; burn := burn o; lang := lang o;
     watermark := watermark o; resolutions_arg := v |}.

(** Why the parser stopped: [ArgumentParser.error] (usage and message on
    the error stream, exit status 2) and the help action (help on the
    output stream, exit status 0). *)
Inductive arg_error : Set :=
  | ambiguous_option (arg_string : string)
  | expected_one_argument (a : action)
  | expected_at_least_one_argument (a : action)
  | ignored_explicit_argument (a : action)
  | invalid_int_value (a : action) (v : string)
  | invalid_choice (a : action) (v : string)
  | not_allowed_with (a other : action)
  | required_arguments (names : list string)
  | unrecognized_arguments (extras : list string).

Inductive parser_exit : Set :=
  | print_help
  | usage_error (e : arg_error).

Inductive result (A : Type) : Type :=
  | Ok (a : A)
  | Stop (e : parser_exit).
Arguments Ok {A} a.
Arguments Stop {A} e.

Definition bind {A B : Type} (r : result A) (k : A -> result B) : result B :=
  match r with
  | Ok a => k a
  | Stop e => Stop e
  end.

Declare Scope result_scope.
Delimit Scope result_scope with result.
Notation "v <- r ;; k" := (bind r (fun v => k))
  (at level 61, r at next level, right associativity) : result_scope.
Notation "' p <- r ;; k" := (bind r (fun p => k))
  (at level 61, p pattern, r at next level, right associativity) : result_scope.

Definition error {A : Type} (e : arg_error) : result A := Stop (usage_error e).

(** The parser's working state: the values so far, the positionals already
    filled, the members of the exclusive group seen with a value, and the
    strings nothing has claimed. *)
Record pstate : Set := {
  st_input : option string;
  st_output : option arg_value;
  st_options : Options;
  seen_non_default_actions : list action;
  extras : list string
}.

Definition initial : pstate :=
  {| st_input := None; st_output := None; st_options := defaults;
     seen_non_default_actions := []; extras := [] |}.

Definition with_options (f : Options -> Options) (st : pstate) : pstate :=
  {| st_input := st_input st; st_output := st_output st;
     st_options := f (st_options st);
     seen_non_default_actions := seen_non_default_actions st;
     extras := extras st |}.

Definition with_seen (a : action) (st : pstate) : pstate :=
  {| st_input := st_input st; st_output := st_output st;
     st_options := st_options st;
     seen_non_default_actions := a :: seen_non_default_actions st;
     extras := extras st |}.

Definition with_extras (l : list string) (st : pstate) : pstate :=
  {| st_input := st_input st; st_output := st_output st;
     st_options := st_options st;
     seen_non_default_actions := seen_non_default_actions st;
     extras := extras st ++ l |}.

Definition with_input (v : string) (st : pstate) : pstate :=
  {| st_input := Some v; st_output := st_output st;
     st_options := st_options st;
     seen_non_default_actions := seen_non_default_actions st;
     extras := extras st |}.

Definition with_output (v : arg_value) (st : pstate) : pstate :=
  {| st_input := st_input st; st_output := Some v;
     st_options := st_options st;
     seen_non_default_actions := seen_non_default_actions st;
     extras := extras st |}.

(** A token of the part of the command line before a [--], classified. *)
Inductive token : Set :=
  | T_A (s : string)
  | T_O (a : option action) (option_string : string)
        (explicit_arg : option string).

Definition is_option (t : token) : bool :=
  match t with
  | T_O _ _ _ => true
  | T_A _ => false
  end.

Definition has_option (l : list token) : bool := existsb is_option l.

(** The argument strings up to the next option. *)
Fixpoint leading_args (l : list token) : list string :=
  match l with
  | T_A s :: l' => s :: leading_args l'
  | _ => []
  end.

(** The first [--] ends the options: what follows are arguments. *)
Fixpoint split_dashes (argv : list string)
  : list string * option (list string) :=
  match argv with
  | [] => ([], None)
  | s :: r =>
      if (s =? "--")%string then ([], Some r)
      else let (pre, post) := split_dashes r in (s :: pre, post)
  end.

Open Scope result_scope.

(** The first pass over the command line: every token before [--] is
    classified; an ambiguous abbreviation ends the run at once. *)
Fixpoint classify (pre : list string) : result (list token) :=
  match pre with
  | [] => Ok []
  | s :: r =>
      t <- match parse_optional s with
           | Positional => Ok (T_A s)
           | Optional a os e => Ok (T_O a os e)
           | Ambiguous => error (ambiguous_option s)
           end ;;
      ts <- classify r ;;
      Ok (t :: ts)
  end.

(** An action given a value is recorded, unless an action it excludes
    was recorded before. *)
Definition check_conflicts (a : action) (st : pstate) : result pstate :=
  match find (fun c => existsb (action_eqb c) (seen_non_default_actions st))
             (action_conflicts a) with
  | Some c => error (not_allowed_with a c)
  | None => Ok (with_seen a st)
  end.

(** After [-h], the rest of a token written with one dash is read as more
    one-letter options; [-h] is the only one there is. *)
Fixpoint single_dash_flags (explicit_arg : string) : bool :=
  match explicit_arg with
  | EmptyString => true
  | String c e' =>
      match lookup (String "-"%char (String c EmptyString))
                   option_string_actions with
      | Some a_help => single_dash_flags e'
      | _ => false
      end
  end.

Definition single_dash (option_string : string) : bool :=
  match option_string with
  | String _ (String c _) => negb (Ascii.eqb c "-"%char)
  | _ => false
  end.

(** A positional met before the last option takes the next free place. *)
Definition consume_positional (a : string) (st : pstate) : pstate :=
  match st_input st, st_output st with
  | None, _ => with_input a st
  | Some _, None => with_output (Str a) st
  | Some _, Some _ => with_extras [a] st
  end.

(** [_get_values] on the one string [b] of an action that takes one
    argument: the [--] is taken out, and the empty list is what remains. *)
Definition lone_value (b : string) : arg_value :=
  if (b =? "--")%string then EmptyList else Str b.

(** [arg_strings.remove('--')], if there is one. *)
Fixpoint remove_dashes (arg_strings : list string) : list string :=
  match arg_strings with
  | [] => []
  | s :: r => if (s =? "--")%string then r else s :: remove_dashes r
  end.

(** The strings left when a positional has taken the last argument before
    the [--] (it takes the [--] along). *)
Definition left_over (rest : list string) (post : option (list string))
  : list string :=
  match rest, post with
  | [], Some p => p
  | _, Some p => rest ++ "--" :: p
  | _, None => rest
  end.

(** The positionals after the last option: [rest] are the arguments before
    the [--], [post] those after it. *)
Definition consume_positionals_end
    (st : pstate) (rest : list string) (post : option (list string))
  : pstate :=
  match st_input st, st_output st with
  | None, _ =>
      match rest, post with
      | a :: b :: rest', _ =>
          with_extras (left_over rest' post)
            (with_output (Str b) (with_input a st))
      | [a], Some (b :: p) =>
          with_extras p (with_output (lone_value b) (with_input a st))
      | [a], _ => with_input a st
      | [], Some (a :: b :: p) =>
          with_extras p (with_output (lone_value b) (with_input a st))
      | [], Some [a] => with_input a st
      | [], Some [] => with_extras ["--"] st
      | [], None => st
      end
  | Some _, None =>
      match rest, post with
      | b :: rest', _ =>
          with_extras (left_over rest' post) (with_output (Str b) st)
      | [], Some (b :: p) => with_extras p (with_output (Str b) st)
      | [], Some [] => with_extras ["--"] st
      | [], None => st
      end
  | Some _, Some _ =>
      with_extras
        (rest ++ match post with Some p => "--" :: p | None => [] end) st
  end.

Definition missing {A : Type} (name : string) (v : option A) : list string :=
  match v with
  | None => [name]
  | Some _ => []
  end.

Section Parser.

(** The builtin [int] on an argument string; [None] is [ValueError]. *)
Variable int : string -> option Z.

(** [_get_values] for [type=int]: nothing is converted when the string
    was [--]. *)
Definition get_int (d : dest) (v : string) : result int_value :=
  if (v =? "--")%string then Ok EmptyIntList
  else match int v with
       | Some n => Ok (Int n)
       | None => error (invalid_int_value (a_store d) v)
       end.

(** [take_action] for an option that stores one argument: convert the
    string, check the exclusive group, store. *)
Definition take_store (d : dest) (v : string) (st : pstate)
  : result pstate :=
  match d with
  | d_x =>
      n <- get_int d v ;; st <- check_conflicts (a_store d) st ;;
      Ok (with_options (set_x n) st)
  | d_y =>
      n <- get_int d v ;; st <- check_conflicts (a_store d) st ;;
      Ok (with_options (set_y n) st)
  | d_fontsize =>
      n <- get_int d v ;; st <- check_conflicts (a_store d) st ;;
      Ok (with_options (set_fontsize n) st)
  | d_fontcolor =>
      st <- check_conflicts (a_store d) st ;;
      Ok (with_options (set_fontcolor (lone_value v)) st)
  | d_pix_fmt =>
      st <- check_conflicts (a_store d) st ;;
      Ok (with_options (set_pix_fmt (lone_value v)) st)
  | d_soft =>
      st <- check_conflicts (a_store d) st ;;
      Ok (with_options (set_soft (Some (lone_value v))) st)
  | d_burn =>
      st <- check_conflicts (a_store d) st ;;
      Ok (with_options (set_burn (Some (lone_value v))) st)
  | d_lang =>
      st <- check_conflicts (a_store d) st ;;
      Ok (with_options (set_lang (lone_value v)) st)
  | d_watermark =>
      st <- check_conflicts (a_store d) st ;;
      Ok (with_options (set_watermark (lone_value v)) st)
  end.

(** [take_action] for [--resolutions]: every value must be a choice,
    once a [--] is taken out. *)
Definition take_resolutions (vs : list string) (st : pstate)
  : result pstate :=
  let vs := remove_dashes vs in
  match find (fun v => negb (str_in v resolution_choices)) vs with
  | Some v => error (invalid_choice a_resolutions v)
  | None =>
      st <- check_conflicts a_resolutions st ;;
      Ok (with_options (set_resolutions vs) st)
  end.

(** The option at the head of the remaining tokens; the result says how
    many of the [following] tokens it took as arguments. *)
Definition consume_optional
    (a : option action) (option_string : string)
    (explicit_arg : option string) (following : list token) (st : pstate)
  : result (pstate * nat) :=
  match a with
  | None => Ok (with_extras [option_string] st, 0%nat)
  | Some a_help =>
      match explicit_arg with
      | None => Stop print_help
      | Some e =>
          if single_dash option_string && negb (e =? "")%string
             && single_dash_flags e
          then Stop print_help
          else error (ignored_explicit_argument a_help)
      end
  | Some (a_store d) =>
      match explicit_arg with
      | Some e => st' <- take_store d e st ;; Ok (st', 0%nat)
      | None =>
          match following with
          | T_A v :: _ => st' <- take_store d v st ;; Ok (st', 1%nat)
          | _ => error (expected_one_argument (a_store d))
          end
      end
  | Some a_resolutions =>
      match explicit_arg with
      | Some e => st' <- take_resolutions [e] st ;; Ok (st', 0%nat)
      | None =>
          match leading_args following with
          | [] => error (expected_at_least_one_argument a_resolutions)
          | vs =>
              st' <- take_resolutions vs st ;; Ok (st', List.length vs)
          end
      end
  end.

(** The loop over the tokens up to the last option.  [skip] counts the
    tokens the last option has taken as its arguments.  The result
    carries the arguments left after the last option. *)
Fixpoint parse_loop (l : list token) (skip : nat) (st : pstate)
  : result (pstate * list string) :=
  match l with
  | [] => Ok (st, [])
  | t :: rest =>
      match skip with
      | S k => parse_loop rest k st
      | 0%nat =>
          if has_option l then
            match t with
            | T_A a => parse_loop rest 0%nat (consume_positional a st)
            | T_O a os e =>
                '(st', n) <- consume_optional a os e rest st ;;
                parse_loop rest n st'
            end
          else Ok (st, leading_args l)
      end
  end.

(** [parser.parse_args()] on the arguments of the command line. *)
Definition parse_args (argv : list string) : result Namespace :=
  let (pre, post) := split_dashes argv in
  toks <- classify pre ;;
  '(st, rest) <- parse_loop toks 0%nat initial ;;
  let st := consume_positionals_end st rest post in
  match st_input st, st_output st with
  | Some i, Some o =>
      match extras st with
      | [] => Ok {| input := i; output := o; options := st_options st |}
      | ex => error (unrecognized_arguments ex)
      end
  | i, o =>
      error (required_arguments (missing "input" i ++ missing "output" o))
  end.

End Parser.

(** ** The profile table and the selection (lines 107-115) *)

Record Profile : Set := {
  res : string;
  bitrate : string;
  maxrate : string;
  bufsize : string;
  audio : string;
  sample_rate : Z
}.

(** A [dict] with [str] keys, in insertion order. *)
Definition dict (V : Type) : Type := list (string * V).

Definition keys {V : Type} (d : dict V) : list string := map fst d.

(** [d[k] = v]: a key already present keeps its place. *)
Fixpoint dict_set {V : Type} (k : string) (v : V) (d : dict V) : dict V :=
  match d with
  | [] => [(k, v)]
  | (k', v') :: d' =>
      if (k =? k')%string then (k', v) :: d' else (k', v') :: dict_set k v d'
  end.

Definition resolutions : dict Profile :=
  [("1080p", {| res := "1920x1080"; bitrate := "3000k"; maxrate := "3500k";
                bufsize := "6000k"; audio := "125k"; sample_rate := 48000 |});
   ("720p",  {| res := "1280x720";  bitrate := "2000k"; maxrate := "2500k";
                bufsize := "4000k"; audio := "110k"; sample_rate := 48000 |});
   ("480p",  {| res := "854x480";   bitrate := "1000k"; maxrate := "1500k";
                bufsize := "2000k"; audio := "90k";  sample_rate := 44100 |});
   ("360p",  {| res := "640x360";   bitrate := "700k";  maxrate := "1200k";
                bufsize := "1400k"; audio := "75k";  sample_rate := 44100 |})].

(** One turn of the comprehension below: [r] gets its entry of the table
    if it has one. *)
Definition comprehension_step (acc : dict Profile) (r : string)
  : dict Profile :=
  match lookup r resolutions with
  | Some p => dict_set r p acc
  | None => acc
  end.

(** [{r: resolutions[r] for r in requested if r in resolutions}]. *)
Definition comprehension (requested : list string) : dict Profile :=
  fold_left comprehension_step requested [].

Definition selected (requested : list string) : dict Profile :=
  if str_in "all" requested then resolutions else comprehension requested.

(** ** Running the encoder (lines 72-76 and 117-128)

    Writing a line to an output stream is taken to succeed. *)

(** What the run does that can be seen from outside, in order. *)
Inductive event : Set :=
  | stdout (line : string)            (* [print(...)] *)
  | stderr (line : string)            (* [print(..., file=sys.stderr)] *)
  | spawn (cmd : list string)         (* [subprocess.run(cmd)] *)
  | traceback                         (* an exception nobody caught *)
  | help_message                      (* the parser's help *)
  | usage_message (e : arg_error).    (* the parser's usage and error *)

(** [subprocess.run] returns once the child has exited, or raises when it
    cannot start it. *)
Inductive completed : Set :=
  | returncode (c : Z)
  | raised.

(** A step of the script either goes on with a value or ends the
    interpreter with an exit status. *)
Inductive outcome (A : Type) : Type :=
  | Return (a : A)
  | Exit (status : Z).
Arguments Return {A} a.
Arguments Exit {A} status.

Definition M (A : Type) : Type := list event -> list event * outcome A.

Definition ret {A : Type} (a : A) : M A := fun tr => (tr, Return a).

Definition seq {A B : Type} (m : M A) (k : A -> M B) : M B :=
  fun tr =>
    match m tr with
    | (tr', Return a) => k a tr'
    | (tr', Exit c) => (tr', Exit c)
    end.

Declare Scope script_scope.
Delimit Scope script_scope with script.
Notation "v <- m ;; k" := (seq m (fun v => k))
  (at level 61, m at next level, right associativity) : script_scope.
Notation "m ;; k" := (seq m (fun _ => k))
  (at level 61, right associativity) : script_scope.

Definition emit (e : event) : M unit := fun tr => (tr ++ [e], Return tt).

Definition sys_exit {A : Type} (status : Z) : M A := fun tr => (tr, Exit status).

(** An exception that reaches the top: traceback, exit status 1. *)
Definition uncaught {A : Type} : M A :=
  fun tr => (tr ++ [traceback], Exit 1).

Fixpoint for_each {A : Type} (l : list A) (body : A -> M unit) : M unit :=
  match l with
  | [] => ret tt
  | a :: l' => seq (body a) (fun _ => for_each l' body)
  end.

(** The commands handed to [subprocess.run], in order. *)
Fixpoint spawned (tr : list event) : list (list string) :=
  match tr with
  | [] => []
  | spawn cmd :: tr' => cmd :: spawned tr'
  | _ :: tr' => spawned tr'
  end.

(** [posixpath.join(a, b)] for a relative [b]. *)
Definition ends_with_slash (a : string) : bool :=
  match String.get (String.length a - 1) a with
  | Some c => Ascii.eqb c "/"%char
  | None => false
  end.

Definition path_join (a b : string) : string :=
  if (a =? "")%string || ends_with_slash a then a ++ b else a ++ "/" ++ b.

Open Scope script_scope.

Section Script.

(** The builtin [int] on an argument string. *)
Variable int : string -> option Z.

(** [os.path.dirname(os.path.realpath(__file__))]. *)
Variable script_dir : string.

(** The world outside: how the [n]-th child process (counting from 0)
    started with [cmd] ends. *)
Variable subprocess_run : nat -> list string -> completed.

Definition run (cmd : list string) : M completed :=
  fun tr =>
    (tr ++ [spawn cmd],
     Return (subprocess_run (List.length (spawned tr)) cmd)).

(** [encode_video]: announce the file, build the argument list, show it,
    run it and look at the return code (lines 9 and 72-76).  When
    [pix_fmt] is the empty list the argument list holds a list, and
    [" ".join] of line 72 raises [TypeError]. *)
Definition encode_video
    (input_file output_file font_path : string) (text : arg_value)
    (x y fontsize : int_value) (fontcolor : arg_value)
    (bitrate audio_bitrate maxrate bufsize : string) (pix_fmt : arg_value)
    (sample_rate : Z) (resolution : string)
    (soft_sub burn_sub : option arg_value) (lang : arg_value) : M unit :=
  emit (stdout ("Processing: " ++ input_file ++ " -> " ++ output_file)) ;;
  match pix_fmt with
  | EmptyList => uncaught
  | Str pix_fmt =>
      let ffmpeg_cmd :=
        ffmpeg_cmd input_file output_file font_path text x y fontsize
                   fontcolor bitrate audio_bitrate maxrate bufsize pix_fmt
                   sample_rate resolution soft_sub burn_sub lang in
      emit (stdout ("Running FFmpeg:" ++ LF ++ join " " ffmpeg_cmd)) ;;
      process <- run ffmpeg_cmd ;;
      match process with
      | returncode c =>
          if negb (c =? 0)%Z
          then emit (stderr "Error: Encoding failed!") ;; sys_exit 1
          else ret tt
      | raised => uncaught
      end
  end.

Definition font_path : string :=
  path_join script_dir "NeometricAlt-HeavyItalic.ttf".

(** The output file of a profile (line 119). *)
Definition out_file (args : Namespace) (name : string) : string :=
  format_value (output args) ++ "_" ++ name ++ ".mp4".

(** One turn of the loop over the selected profiles. *)
Definition encode_profile (args : Namespace) (item : string * Profile)
  : M unit :=
  let '(name, opts) := item in
  encode_video
    (input args) (out_file args name) font_path (watermark args)
    (x args) (y args) (fontsize args) (fontcolor args)
    (bitrate opts) (audio opts) (maxrate opts) (bufsize opts)
    (pix_fmt args) (sample_rate opts) (res opts)
    (soft args) (burn args) (lang args).

(** The script from [args] on (lines 107-128). *)
Definition encode_all (args : Namespace) : M unit :=
  for_each (selected (resolutions_arg args)) (encode_profile args) ;;
  emit (stdout "Encoding complete!").

(** The whole script on the arguments of its command line: what it
    does, and its exit status. *)
Definition main (argv : list string) : list event * Z :=
  match parse_args int argv with
  | Stop print_help => ([help_message], 0%Z)
  | Stop (usage_error e) => ([usage_message e], 2%Z)
  | Ok args =>
      match encode_all args [] with
      | (tr, Return _) => (tr, 0%Z)
      | (tr, Exit status) => (tr, status)
      end
  end.

(** The argument list built for a profile, element by element as text:
    all of them are [str], except the pixel format when it is the empty
    list. *)
Definition profile_cmd (args : Namespace) (item : string * Profile)
  : list string :=
  let '(name, opts) := item in
  ffmpeg_cmd
    (input args) (out_file args name) font_path (watermark args)
    (x args) (y args) (fontsize args) (fontcolor args)
    (bitrate opts) (audio opts) (maxrate opts) (bufsize opts)
    (format_value (pix_fmt args)) (sample_rate opts) (res opts)
    (soft args) (burn args) (lang args).

(** What one turn of the loop shows up to the start of the child. *)
Definition profile_events (args : Namespace) (item : string * Profile)
  : list event :=
  [stdout ("Processing: " ++ input args ++ " -> "
           ++ out_file args (fst item));
   stdout ("Running FFmpeg:" ++ LF ++ join " " (profile_cmd args item));
   spawn (profile_cmd args item)].

End Script.

(** ** Reading an argument list back *)

(** The options of an argument list with their values, as the list is
    written: after the program name an option and its value in turn, except
    [-dn], which stands alone; the last string is the output file. *)
Fixpoint option_pairs (l : list string) : list (string * string) :=
  match l with
  | f :: ((v :: l') as tl) =>
      if (f =? "-dn")%string then option_pairs tl else (f, v) :: option_pairs l'
  | _ => []
  end.

(** The values given to [flag], in order. *)
Definition values (flag : string) (cmd : list string) : list string :=
  map snd (filter (fun p => (fst p =? flag)%string) (option_pairs (tl cmd))).

(** A stage of the filter chain that burns subtitles in. *)
Definition is_subtitles_stage (stage : string) : bool :=
  String.prefix "subtitles=" stage.

(** The profile names the table knows. *)
Definition known (name : string) : bool := str_in name (keys resolutions).

(** The names of a request in the order of their first appearance. *)
Fixpoint first_occurrences (l : list string) : list string :=
  match l with
  | [] => []
  | a :: l' =>
      a :: filter (fun b => negb (b =? a)%string) (first_occurrences l')
  end.

(** A conversion that agrees with the builtin [int] on plain decimal
    numerals, with or without a sign; it is what the examples run with. *)
Fixpoint digits (s : string) (acc : Z) : option Z :=
  match s with
  | EmptyString => Some acc
  | String c s' =>
      if is_digit c
      then digits s' (10 * acc + Z.of_nat (nat_of_ascii c - 48))%Z
      else None
  end.

Definition decimal (s : string) : option Z :=
  match s with
  | String "-"%char (String c r) => option_map Z.opp (digits (String c r) 0%Z)
  | String "+"%char (String c r) => digits (String c r) 0%Z
  | String _ _ => digits s 0%Z
  | EmptyString => None
  end.

(** ** Vocabulary of the properties *)

(** A token of the command line names the option [a]: it is one of its
    option strings, an abbreviation of one, or either with [=value]. *)
Definition names (a : action) (arg_string : string) : bool :=
  match parse_optional arg_string with
  | Optional (Some a') _ _ => action_eqb a a'
  | _ => false
  end.

(** The command line supplies the option [a]: a token before any [--]
    names it. *)
Definition supplies (a : action) (argv : list string) : bool :=
  existsb (names a) (fst (split_dashes argv)).





Definition token_of (a : action) (t : token) : bool :=
  match t with
  | T_O (Some a') _ _ => action_eqb a a'
  | _ => false
  end.

Definition seen (a : action) (st : pstate) : bool :=
  existsb (action_eqb a) (seen_non_default_actions st).

(** A command line, the namespace it parses to, and two worlds: one where
    every child exits with 0, one where the first child exits with 1. *)
Definition sample_dir : string := "/opt/encode".

Definition sample_argv : list string :=
  ["in.mp4"; "out"; "--soft"; "subs.srt";
   "--resolutions"; "720p"; "480p"; "360p"].

Definition sample_args : Namespace :=
  {| input := "in.mp4"; output := Str "out";
     options := set_resolutions ["720p"; "480p"; "360p"]
                  (set_soft (Some (Str "subs.srt")) defaults) |}.

Definition all_succeed (n : nat) (cmd : list string) : completed :=
  returncode 0.

Definition first_fails (n : nat) (cmd : list string) : completed :=
  match n with
  | 0%nat => returncode 1
  | _ => returncode 0
  end.

Definition profile_720p : string * Profile :=
  ("720p", {| res := "1280x720"; bitrate := "2000k"; maxrate := "2500k";
              bufsize := "4000k"; audio := "110k"; sample_rate := 48000 |}).

Definition profile_480p : string * Profile :=
  ("480p", {| res := "854x480"; bitrate := "1000k"; maxrate := "1500k";
              bufsize := "2000k"; audio := "90k"; sample_rate := 44100 |}).

(** ** More vocabulary, for the properties beyond the command shape *)

(** The string starts with the prefix character of options. *)
Definition starts_with_dash (s : string) : bool :=
  match s with
  | String c _ => Ascii.eqb c "-"%char
  | EmptyString => false
  end.

(** A token that is written like an option but names none of the parser. *)
Definition unknown_option (arg_string : string) : bool :=
  match parse_optional arg_string with
  | Optional None _ _ => true
  | _ => false
  end.

Definition unknown_token (t : token) : bool :=
  match t with
  | T_O None _ _ => true
  | _ => false
  end.

(** The output files the commands of a trace name. *)
Definition output_files (tr : list event) : list string :=
  map (fun cmd => last cmd "") (spawned tr).

(** U+0663, the Arabic-Indic digit three, in UTF-8. *)
Definition arabic_indic_three : string :=
  String "217"%char (String "163"%char EmptyString).

(** A world where the second child cannot be started. *)
Definition second_raises (n : nat) (cmd : list string) : completed :=
  match n with
  | 1%nat => raised
  | _ => returncode 0
  end.

(** * Properties *)

(** ** The definitions at work *)

Example str_of_int_48000 : str_of_int 48000 = "48000".
Proof. reflexivity. Qed.

Example str_of_int_neg : str_of_int (-5) = "-5".
Proof. reflexivity. Qed.

Example str_of_int_zero : str_of_int 0 = "0".
Proof. reflexivity. Qed.

Example parse_optional_exact :
  parse_optional "--soft" = Optional (Some (a_store d_soft)) "--soft" None.
Proof. reflexivity. Qed.

Example parse_optional_abbrev :
  parse_optional "--bu=b.srt" = Optional (Some (a_store d_burn)) "--burn"
                                    (Some "b.srt").
Proof. reflexivity. Qed.

Example parse_optional_ambiguous : parse_optional "--font" = Ambiguous.
Proof. reflexivity. Qed.

Example parse_optional_negative : parse_optional "-12" = Positional.
Proof. reflexivity. Qed.

Example parse_optional_unknown :
  parse_optional "-q" = Optional None "-q" None.
Proof. reflexivity. Qed.

Example parse_optional_cluster :
  parse_optional "-hh" = Optional (Some a_help) "-h" (Some "h").
Proof. reflexivity. Qed.

Example decode_arabic_indic_three :
  decode_char arabic_indic_three = Some (1635%N, 2%nat).
Proof. reflexivity. Qed.

(** [\d] matches the digits of any script: a dash and such a digit is an
    argument, not an option. *)
Example parse_optional_negative_unicode :
  parse_optional ("-" ++ arabic_indic_three) = Positional
  /\ unknown_option ("-" ++ arabic_indic_three) = false
  /\ parse_optional ("-" ++ arabic_indic_three ++ "x")
     = Optional None ("-" ++ arabic_indic_three ++ "x") None.
Proof. repeat split; reflexivity. Qed.

Example parse_optional_negative_fraction :
  parse_optional "-1.5" = Positional /\ parse_optional "-.5" = Positional
  /\ parse_optional "-1." = Optional None "-1." None.
Proof. repeat split; reflexivity. Qed.

(** A value written [--] after [=] is taken out: the option stores the
    empty list, without conversion and without a look at the choices. *)
Example parse_args_dashes_values :
  parse_args decimal
    ["in.mp4"; "out"; "--x=--"; "--soft=--"; "--resolutions=--"]
  = Ok {| input := "in.mp4"; output := Str "out";
          options :=
            {| x := EmptyIntList; y := Int 40; fontsize := Int 30;
               fontcolor := Str "white@0.5"; pix_fmt := Str "yuv420p";
               soft := Some EmptyList; burn := None;
               lang := Str "ar"; watermark := Str "HALASHOW.COM";
               resolutions_arg := [] |} |}.
Proof. reflexivity. Qed.

(** With no name requested nothing is encoded, and the run ends well. *)
Example main_nothing_requested :
  main decimal sample_dir all_succeed ["in.mp4"; "out"; "--resolutions=--"]
  = ([stdout "Encoding complete!"], 0%Z).
Proof. reflexivity. Qed.

(** The empty list shows as [[]] where a value is formatted. *)
Example main_empty_values_render :
  map (values "-vf")
    (spawned (fst (main decimal sample_dir all_succeed
                     ["in.mp4"; "out"; "--x=--"; "--watermark=--";
                      "--resolutions"; "360p"])))
  = [["scale=640x360,drawtext=fontfile='/opt/encode/NeometricAlt-HeavyItalic.ttf':text='[]':x=[]:y=40:fontsize=30:fontcolor=white@0.5"]].
Proof. reflexivity. Qed.

(** [--soft=--] and [--burn=--] store the empty list, and still exclude
    each other. *)
Example parse_args_dashes_conflict :
  parse_args decimal ["in.mp4"; "out"; "--soft=--"; "--burn=--"]
  = Stop (usage_error (not_allowed_with (a_store d_burn) (a_store d_soft))).
Proof. reflexivity. Qed.

Example selected_default : keys (selected ["all"]) = ["1080p"; "720p"; "480p"; "360p"].
Proof. reflexivity. Qed.

Example selected_two : keys (selected ["480p"; "1080p"; "480p"]) = ["480p"; "1080p"].
Proof. reflexivity. Qed.

Example decimal_12 : decimal "12" = Some 12%Z.
Proof. reflexivity. Qed.

Example decimal_neg : decimal "-7" = Some (-7)%Z.
Proof. reflexivity. Qed.

Example decimal_bad : decimal "1x" = None.
Proof. reflexivity. Qed.

(** ** The filter chain and the argument list *)

Lemma scale_not_subtitles resolution :
  is_subtitles_stage (scale_stage resolution) = false.
Proof. reflexivity. Qed.

Lemma drawtext_not_subtitles font_path text x y fontsize fontcolor :
  is_subtitles_stage
    (drawtext_stage font_path text x y fontsize fontcolor) = false.
Proof. reflexivity. Qed.

Lemma subtitles_is_subtitles burn_sub :
  is_subtitles_stage (subtitles_stage burn_sub) = true.
Proof. reflexivity. Qed.

Lemma append_assoc (a b c : string) :
  ((a ++ b) ++ c = a ++ (b ++ c))%string.
Proof. induction a as [|ch a IH]; simpl; [reflexivity | now rewrite IH]. Qed.

Section CommandShape.

Variables (input_file output_file font_path : string).
Variable (text : arg_value).
Variables (x y fontsize : int_value).
Variable (fontcolor : arg_value).
Variables (bitrate audio_bitrate maxrate bufsize pix_fmt : string).
Variable (sample_rate : Z).
Variable (resolution : string).

Local Abbreviation cmd :=
  (ffmpeg_cmd input_file output_file font_path text x y fontsize fontcolor
              bitrate audio_bitrate maxrate bufsize pix_fmt sample_rate
              resolution).

Local Abbreviation chain :=
  (filter_complex font_path text x y fontsize fontcolor resolution).

(** The argument list with a soft subtitle, written out. *)
Lemma ffmpeg_cmd_soft soft_sub burn_sub lang :
  truthy soft_sub = true ->
  cmd soft_sub burn_sub lang =
    ["ffmpeg"; "-threads"; "0"; "-i"; input_file;
     "-i"; str_value soft_sub;
     "-vf"; chain burn_sub;
     "-map"; "0:v"; "-map"; "0:a"; "-map"; "1:0";
     "-c:v"; "libx264"; "-profile:v"; "high"; "-pix_fmt"; pix_fmt;
     "-b:v"; bitrate; "-maxrate"; maxrate; "-bufsize"; bufsize;
     "-preset"; "medium";
     "-c:a"; "aac"; "-b:a"; audio_bitrate;
     "-ar"; str_of_int sample_rate; "-ac"; "2";
     "-c:s"; "mov_text";
     "-metadata:s:s:0"; ("language=" ++ format_value lang)%string;
     "-map_metadata"; "-1"; "-map_chapters"; "-1";
     "-movflags"; "+faststart"; "-dn"; output_file].
Proof. intros H. unfold ffmpeg_cmd. rewrite H. reflexivity. Qed.

(** The argument list without a soft subtitle, written out. *)
Lemma ffmpeg_cmd_no_soft soft_sub burn_sub lang :
  truthy soft_sub = false ->
  cmd soft_sub burn_sub lang =
    ["ffmpeg"; "-threads"; "0"; "-i"; input_file;
     "-vf"; chain burn_sub;
     "-map"; "0:v"; "-map"; "0:a";
     "-c:v"; "libx264"; "-profile:v"; "high"; "-pix_fmt"; pix_fmt;
     "-b:v"; bitrate; "-maxrate"; maxrate; "-bufsize"; bufsize;
     "-preset"; "medium";
     "-c:a"; "aac"; "-b:a"; audio_bitrate;
     "-ar"; str_of_int sample_rate; "-ac"; "2";
     "-map_metadata"; "-1"; "-map_chapters"; "-1";
     "-movflags"; "+faststart"; "-dn"; output_file].
Proof. intros H. unfold ffmpeg_cmd. rewrite H. reflexivity. Qed.

(** A string that is not empty tests true. *)
Lemma truthy_Str s : (s =? "")%string = false -> truthy (Some (Str s)) = true.
Proof. intros H. simpl. now rewrite H. Qed.

(** C7. The filter chain handed to [-vf] is one string, the stages joined
    with a comma.  The first stage is [scale=] with the resolution, the
    last is the [drawtext=] overlay with the font file, the text, the
    position, the size and the colour.  When [burn_sub] is a string that
    is not empty there is one stage more, [subtitles=] with that string in
    quotes, between the two; in every other case the two stages are all
    there is. *)
Theorem filter_chain_order
    (soft_sub burn_sub : option arg_value) (lang : arg_value) :
  let scale := ("scale=" ++ resolution)%string in
  let drawtext :=
    ("drawtext=fontfile='" ++ font_path ++ "':text='" ++ format_value text
       ++ "':x=" ++ format_int x ++ ":y=" ++ format_int y
       ++ ":fontsize=" ++ format_int fontsize
       ++ ":fontcolor=" ++ format_value fontcolor)%string in
  let stages :=
    filters font_path text x y fontsize fontcolor resolution burn_sub in
  let two_stages :=
    stages = [scale; drawtext]
    /\ join "," stages = (scale ++ "," ++ drawtext)%string
    /\ existsb is_subtitles_stage stages = false in
  values "-vf" (cmd soft_sub burn_sub lang) = [join "," stages]
  /\ hd_error stages = Some scale
  /\ last stages "" = drawtext
  /\ existsb is_subtitles_stage stages = truthy burn_sub
  /\ match burn_sub with
     | Some (Str b) =>
         if (b =? "")%string then two_stages
         else
           let subtitles := ("subtitles='" ++ b ++ "'")%string in
           stages = [scale; subtitles; drawtext]
           /\ join "," stages
              = (scale ++ "," ++ subtitles ++ "," ++ drawtext)%string
           /\ nth_error stages 1 = Some subtitles
           /\ existsb is_subtitles_stage stages = true
     | Some EmptyList => two_stages
     | None => two_stages
     end.
Proof.
  intros scale drawtext stages two_stages.
  split.
  { destruct (truthy soft_sub) eqn:Hs.
    - now rewrite (ffmpeg_cmd_soft _ _ _ Hs).
    - now rewrite (ffmpeg_cmd_no_soft _ _ _ Hs). }
  subst two_stages stages scale drawtext. unfold filters.
  destruct burn_sub as [[b|]|]; cbn [truthy];
    [destruct (b =? "")%string eqn:E; cbn [negb]|..];
    cbn [app hd_error last existsb nth_error];
    rewrite ?scale_not_subtitles, ?drawtext_not_subtitles,
            ?subtitles_is_subtitles;
    repeat split; reflexivity.
Qed.

(** C3. With a soft subtitle (a string that is not empty) the argument
    list has a second input, the subtitle file, after the first; a third
    stream map, [1:0]; the subtitle codec [mov_text] and the language tag.
    With a burnt-in subtitle and no soft one it has the one input and the
    two maps, no subtitle codec and no language tag; the subtitle shows
    only in the filter chain, as the stage [subtitles=] with the file in
    quotes between the scale and the text overlay. *)
Theorem subtitle_modes (soft_sub burn_sub : option arg_value)
    (lang : arg_value) :
  (forall s : string,
     (s =? "")%string = false -> soft_sub = Some (Str s) ->
     values "-i" (cmd soft_sub burn_sub lang) = [input_file; s]
     /\ values "-map" (cmd soft_sub burn_sub lang) = ["0:v"; "0:a"; "1:0"]
     /\ values "-c:s" (cmd soft_sub burn_sub lang) = ["mov_text"]
     /\ values "-metadata:s:s:0" (cmd soft_sub burn_sub lang)
        = [("language=" ++ format_value lang)%string])
  /\ (forall b : string,
     (b =? "")%string = false -> burn_sub = Some (Str b) ->
     truthy soft_sub = false ->
     values "-i" (cmd soft_sub burn_sub lang) = [input_file]
     /\ values "-map" (cmd soft_sub burn_sub lang) = ["0:v"; "0:a"]
     /\ values "-c:s" (cmd soft_sub burn_sub lang) = []
     /\ values "-metadata:s:s:0" (cmd soft_sub burn_sub lang) = []
     /\ values "-vf" (cmd soft_sub burn_sub lang)
        = [("scale=" ++ resolution
            ++ ",subtitles='" ++ b ++ "'"
            ++ ",drawtext=fontfile='" ++ font_path
            ++ "':text='" ++ format_value text
            ++ "':x=" ++ format_int x ++ ":y=" ++ format_int y
            ++ ":fontsize=" ++ format_int fontsize
            ++ ":fontcolor=" ++ format_value fontcolor)%string]).
Proof.
  split.
  - intros s Hs ->. rewrite (ffmpeg_cmd_soft _ _ _ (truthy_Str _ Hs)).
    repeat split; reflexivity.
  - intros b Hb -> Hs. rewrite (ffmpeg_cmd_no_soft _ _ _ Hs).
    unfold filter_complex, filters. rewrite (truthy_Str _ Hb).
    repeat split; try reflexivity.
    unfold scale_stage, subtitles_stage, drawtext_stage, join.
    cbn [app String.concat str_value format_value values option_pairs tl
         filter map fst snd String.eqb Ascii.eqb Bool.eqb].
    rewrite !append_assoc. reflexivity.
Qed.

(** C10. Without a soft subtitle the argument list does not depend on the
    language code. *)
Theorem lang_only_with_soft
    (soft_sub burn_sub : option arg_value) (lang1 lang2 : arg_value) :
  truthy soft_sub = false ->
  cmd soft_sub burn_sub lang1 = cmd soft_sub burn_sub lang2.
Proof.
  intros Hs. now rewrite !(ffmpeg_cmd_no_soft _ _ _ Hs).
Qed.

(** The last string of the argument list is the output file. *)
Lemma ffmpeg_cmd_last soft_sub burn_sub lang :
  last (cmd soft_sub burn_sub lang) "" = output_file.
Proof.
  destruct (truthy soft_sub) eqn:Hs.
  - now rewrite (ffmpeg_cmd_soft _ _ _ Hs).
  - now rewrite (ffmpeg_cmd_no_soft _ _ _ Hs).
Qed.

End CommandShape.

Lemma filter_chain_order_witness :
  values "-vf"
    (ffmpeg_cmd "in.mp4" "out_720p.mp4" "/opt/encode/font.ttf" "W"
       20 40 30 "white@0.5" "2000k" "110k" "2500k" "4000k" "yuv420p" 48000
       "1280x720" None (Some (Str "burn.srt")) "ar")
  = ["scale=1280x720,subtitles='burn.srt',drawtext=fontfile='/opt/encode/font.ttf':text='W':x=20:y=40:fontsize=30:fontcolor=white@0.5"]
  /\ values "-vf"
    (ffmpeg_cmd "in.mp4" "out_720p.mp4" "/opt/encode/font.ttf" "W"
       20 40 30 "white@0.5" "2000k" "110k" "2500k" "4000k" "yuv420p" 48000
       "1280x720" (Some (Str "subs.srt")) None "ar")
  = ["scale=1280x720,drawtext=fontfile='/opt/encode/font.ttf':text='W':x=20:y=40:fontsize=30:fontcolor=white@0.5"].
Proof.
  split.
  - exact (proj1 (filter_chain_order
             "in.mp4" "out_720p.mp4" "/opt/encode/font.ttf" "W"
             20 40 30 "white@0.5" "2000k" "110k" "2500k" "4000k" "yuv420p"
             48000 "1280x720" None (Some (Str "burn.srt")) "ar")).
  - exact (proj1 (filter_chain_order
             "in.mp4" "out_720p.mp4" "/opt/encode/font.ttf" "W"
             20 40 30 "white@0.5" "2000k" "110k" "2500k" "4000k" "yuv420p"
             48000 "1280x720" (Some (Str "subs.srt")) None "ar")).
Defined.

Lemma subtitle_modes_witness :
  values "-i"
    (ffmpeg_cmd "in.mp4" "out_720p.mp4" "/opt/encode/font.ttf" "W"
       20 40 30 "white" "2000k" "110k" "2500k" "4000k" "yuv420p" 48000
       "1280x720" (Some (Str "subs.srt")) None "ar")
  = ["in.mp4"; "subs.srt"]
  /\ values "-metadata:s:s:0"
    (ffmpeg_cmd "in.mp4" "out_720p.mp4" "/opt/encode/font.ttf" "W"
       20 40 30 "white" "2000k" "110k" "2500k" "4000k" "yuv420p" 48000
       "1280x720" (Some (Str "subs.srt")) None "ar")
  = ["language=ar"]
  /\ values "-i"
    (ffmpeg_cmd "in.mp4" "out_720p.mp4" "/opt/encode/font.ttf" "W"
       20 40 30 "white" "2000k" "110k" "2500k" "4000k" "yuv420p" 48000
       "1280x720" None (Some (Str "burn.srt")) "ar")
  = ["in.mp4"]
  /\ values "-vf"
    (ffmpeg_cmd "in.mp4" "out_720p.mp4" "/opt/encode/font.ttf" "W"
       20 40 30 "white" "2000k" "110k" "2500k" "4000k" "yuv420p" 48000
       "1280x720" None (Some (Str "burn.srt")) "ar")
  = ["scale=1280x720,subtitles='burn.srt',drawtext=fontfile='/opt/encode/font.ttf':text='W':x=20:y=40:fontsize=30:fontcolor=white"].
Proof.
  pose proof (proj1 (subtitle_modes
                "in.mp4" "out_720p.mp4" "/opt/encode/font.ttf" "W"
                20 40 30 "white" "2000k" "110k" "2500k" "4000k" "yuv420p"
                48000 "1280x720" (Some (Str "subs.srt")) None "ar")
              "subs.srt" eq_refl eq_refl) as Hsoft.
  pose proof (proj2 (subtitle_modes
                "in.mp4" "out_720p.mp4" "/opt/encode/font.ttf" "W"
                20 40 30 "white" "2000k" "110k" "2500k" "4000k" "yuv420p"
                48000 "1280x720" None (Some (Str "burn.srt")) "ar")
              "burn.srt" eq_refl eq_refl eq_refl) as Hburn.
  split; [exact (proj1 Hsoft)|].
  split; [exact (proj2 (proj2 (proj2 Hsoft)))|].
  split; [exact (proj1 Hburn)|].
  exact (proj2 (proj2 (proj2 (proj2 Hburn)))).
Defined.

Lemma lang_only_with_soft_witness :
  truthy None = false
  /\ ffmpeg_cmd "in.mp4" "out_720p.mp4" "/opt/encode/font.ttf" "W"
       20 40 30 "white" "2000k" "110k" "2500k" "4000k" "yuv420p" 48000
       "1280x720" None (Some (Str "burn.srt")) "ar"
     = ffmpeg_cmd "in.mp4" "out_720p.mp4" "/opt/encode/font.ttf" "W"
         20 40 30 "white" "2000k" "110k" "2500k" "4000k" "yuv420p" 48000
         "1280x720" None (Some (Str "burn.srt")) "eng".
Proof.
  split; [reflexivity|].
  apply lang_only_with_soft. reflexivity.
Defined.

(** ** The selection *)

Lemma str_in_In s l : str_in s l = true <-> In s l.
Proof.
  unfold str_in. rewrite existsb_exists. split.
  - intros [y [Hy He]]. apply String.eqb_eq in He. now subst.
  - intros H. exists s. split; [assumption | apply String.eqb_refl].
Qed.

Lemma str_in_cons s a l : str_in s (a :: l) = (s =? a)%string || str_in s l.
Proof. reflexivity. Qed.

Lemma str_in_app s l1 l2 : str_in s (l1 ++ l2) = str_in s l1 || str_in s l2.
Proof. apply existsb_app. Qed.

Lemma lookup_Some_known {V} k (d : dict V) v :
  lookup k d = Some v -> str_in k (keys d) = true.
Proof.
  induction d as [|[k' v'] d IH]; simpl; [discriminate|].
  destruct (k =? k')%string; [reflexivity | exact IH].
Qed.

Lemma lookup_None_known {V} k (d : dict V) :
  lookup k d = None -> str_in k (keys d) = false.
Proof.
  induction d as [|[k' v'] d IH]; simpl; [reflexivity|].
  destruct (k =? k')%string; [discriminate | exact IH].
Qed.

Lemma lookup_In {V} k (d : dict V) v : lookup k d = Some v -> In (k, v) d.
Proof.
  induction d as [|[k' v'] d IH]; simpl; [discriminate|].
  destruct (k =? k')%string eqn:E.
  - apply String.eqb_eq in E. intros [= ->]. left. now subst.
  - intros H. right. now apply IH.
Qed.

Lemma In_lookup {V} k (d : dict V) v :
  NoDup (keys d) -> In (k, v) d -> lookup k d = Some v.
Proof.
  induction d as [|[k' v'] d IH]; simpl; [contradiction|].
  intros Hnd [H | H].
  - injection H as -> ->. now rewrite String.eqb_refl.
  - inversion Hnd as [|? ? Hnotin Hnd']; subst.
    destruct (k =? k')%string eqn:E.
    + apply String.eqb_eq in E. subst k'. exfalso. apply Hnotin.
      change k with (fst (k, v)). now apply in_map.
    + now apply IH.
Qed.

Lemma keys_dict_set {V} k (v : V) d :
  keys (dict_set k v d)
  = if str_in k (keys d) then keys d else keys d ++ [k].
Proof.
  induction d as [|[k' v'] d IH]; simpl; [reflexivity|].
  destruct (k =? k')%string eqn:E; simpl; [reflexivity|].
  unfold keys in *. rewrite IH.
  now destruct (str_in k (map fst d)).
Qed.

Lemma in_dict_set {V} k (v : V) d k0 v0 :
  In (k0, v0) (dict_set k v d) -> (k0 = k /\ v0 = v) \/ In (k0, v0) d.
Proof.
  induction d as [|[k' v'] d IH]; simpl.
  - intros [[= <- <-] | []]. now left.
  - destruct (k =? k')%string eqn:E; simpl.
    + apply String.eqb_eq in E. subst k'.
      intros [[= <- <-] | H]; [now left | right; now right].
    + intros [H | H]; [right; now left|].
      destruct (IH H) as [H' | H']; [now left | right; now right].
Qed.

Lemma filter_filter_andb {A} (f g : A -> bool) l :
  filter f (filter g l) = filter (fun a => g a && f a) l.
Proof.
  induction l as [|a l IH]; simpl; [reflexivity|].
  destruct (g a); simpl; [destruct (f a)|]; now rewrite IH.
Qed.

Lemma first_occurrences_In a l : In a (first_occurrences l) <-> In a l.
Proof.
  induction l as [|b l IH]; simpl; [tauto|].
  rewrite filter_In, IH, negb_true_iff, String.eqb_neq.
  destruct (string_dec b a); [subst; tauto | intuition congruence].
Qed.

Lemma first_occurrences_NoDup l : NoDup (first_occurrences l).
Proof.
  induction l as [|a l IH]; simpl; constructor.
  - rewrite filter_In, negb_true_iff, String.eqb_neq. tauto.
  - now apply NoDup_filter.
Qed.

Lemma comprehension_keys_from requested acc :
  keys (fold_left comprehension_step requested acc)
  = keys acc
    ++ filter (fun r => negb (str_in r (keys acc)))
         (first_occurrences (filter known requested)).
Proof.
  revert acc.
  induction requested as [|a l IH]; intros acc; simpl.
  - now rewrite app_nil_r.
  - rewrite IH. unfold comprehension_step.
    destruct (lookup a resolutions) as [p|] eqn:E.
    + assert (Hk : known a = true) by exact (lookup_Some_known _ _ _ E).
      rewrite Hk. simpl.
      rewrite keys_dict_set, filter_filter_andb.
      destruct (str_in a (keys acc)) eqn:Ha; simpl.
      * f_equal. apply filter_ext. intros b.
        destruct (b =? a)%string eqn:Eb; simpl; [|reflexivity].
        apply String.eqb_eq in Eb. subst b. now rewrite Ha.
      * rewrite <- app_assoc. simpl. do 2 f_equal.
        apply filter_ext. intros b. rewrite str_in_app. simpl.
        rewrite orb_false_r, negb_orb. apply andb_comm.
    + assert (Hk : known a = false) by exact (lookup_None_known _ _ E).
      now rewrite Hk.
Qed.

Lemma comprehension_keys requested :
  keys (comprehension requested)
  = first_occurrences (filter known requested).
Proof.
  unfold comprehension. rewrite comprehension_keys_from. simpl.
  induction (first_occurrences (filter known requested)) as [|b l IH];
    simpl; [reflexivity | now rewrite IH].
Qed.

Lemma resolutions_keys : keys resolutions = ["1080p"; "720p"; "480p"; "360p"].
Proof. reflexivity. Qed.

Lemma resolutions_NoDup : NoDup (keys resolutions).
Proof.
  rewrite resolutions_keys.
  repeat constructor; simpl; intuition discriminate.
Qed.

Lemma comprehension_entries_from requested acc k v :
  (forall k' v', In (k', v') acc -> lookup k' resolutions = Some v') ->
  In (k, v) (fold_left comprehension_step requested acc) ->
  lookup k resolutions = Some v.
Proof.
  revert acc.
  induction requested as [|a l IH]; intros acc Hacc; simpl.
  - apply Hacc.
  - apply IH. intros k' v'. unfold comprehension_step.
    destruct (lookup a resolutions) as [p|] eqn:E; [|apply Hacc].
    intros H. destruct (in_dict_set _ _ _ _ _ H) as [[-> ->] | H'].
    + exact E.
    + now apply Hacc.
Qed.

(** Every entry of the comprehension is an entry of the table. *)
Lemma comprehension_entries requested k v :
  In (k, v) (comprehension requested) -> lookup k resolutions = Some v.
Proof.
  apply (comprehension_entries_from requested []). intros ? ? [].
Qed.

Lemma all_in_requested requested :
  In "all" requested -> selected requested = resolutions.
Proof.
  intros H. unfold selected.
  now rewrite (proj2 (str_in_In _ _) H).
Qed.

Lemma valid_names_no_all requested :
  Forall (fun r => In r (keys resolutions)) requested ->
  str_in "all" requested = false /\ filter known requested = requested.
Proof.
  induction 1 as [|a l Ha Hl [IH1 IH2]]; [now split|].
  split.
  - rewrite str_in_cons, IH1, orb_false_r. apply String.eqb_neq. intros <-.
    rewrite resolutions_keys in Ha. simpl in Ha. intuition discriminate.
  - cbn [filter]. unfold known at 1.
    rewrite (proj2 (str_in_In _ _) Ha). now rewrite IH2.
Qed.

(** C6. A request that holds [all] selects the whole table: the four
    profiles 1080p, 720p, 480p, 360p in that order. *)
Theorem all_selects_table (requested : list string) :
  In "all" requested ->
  selected requested = resolutions
  /\ keys (selected requested) = ["1080p"; "720p"; "480p"; "360p"].
Proof.
  intros H. rewrite (all_in_requested _ H). now split.
Qed.

Lemma all_selects_table_witness :
  In "all" ["all"]
  /\ keys (selected ["all"]) = ["1080p"; "720p"; "480p"; "360p"].
Proof.
  split; [simpl; now left|].
  apply (all_selects_table ["all"]). simpl. now left.
Defined.

(** C4, as amended.  For a request made of names of the table, the
    selection holds exactly the entries of the table whose names are
    requested, each once; they come in the order in which the names first
    appear in the request. *)
Theorem selected_request_order (requested : list string) :
  Forall (fun r => In r (keys resolutions)) requested ->
  keys (selected requested) = first_occurrences requested
  /\ Permutation (selected requested)
       (filter (fun item => str_in (fst item) requested) resolutions).
Proof.
  intros Hvalid.
  destruct (valid_names_no_all _ Hvalid) as [Hall Hknown].
  unfold selected. rewrite Hall.
  assert (Hkeys : keys (comprehension requested) = first_occurrences requested)
    by now rewrite comprehension_keys, Hknown.
  split; [exact Hkeys|].
  assert (Hnd : NoDup (keys (comprehension requested)))
    by (rewrite Hkeys; apply first_occurrences_NoDup).
  apply NoDup_Permutation.
  - exact (NoDup_map_inv _ _ Hnd).
  - apply NoDup_filter. exact (NoDup_map_inv _ _ resolutions_NoDup).
  - intros [k v]. rewrite filter_In. cbn [fst]. split.
    + intros Hin. split.
      * apply lookup_In. now apply comprehension_entries in Hin.
      * apply str_in_In, first_occurrences_In. rewrite <- Hkeys.
        change k with (fst (k, v)). now apply in_map.
    + intros [Hin Hreq].
      apply str_in_In, first_occurrences_In in Hreq. rewrite <- Hkeys in Hreq.
      apply in_map_iff in Hreq. destruct Hreq as [[k' v'] [Hk Hin']].
      simpl in Hk. subst k'.
      pose proof (comprehension_entries _ _ _ Hin') as Hv'.
      rewrite (In_lookup _ _ _ resolutions_NoDup Hin) in Hv'.
      now injection Hv' as ->.
Qed.

Lemma selected_request_order_witness :
  Forall (fun r => In r (keys resolutions)) ["360p"; "1080p"; "360p"]
  /\ keys (selected ["360p"; "1080p"; "360p"]) = ["360p"; "1080p"].
Proof.
  assert (H : Forall (fun r => In r (keys resolutions))
                     ["360p"; "1080p"; "360p"])
    by (repeat constructor; simpl; tauto).
  split; [exact H|].
  exact (proj1 (selected_request_order ["360p"; "1080p"; "360p"] H)).
Defined.

(** C4 as first stated does not hold: asked for 360p and then 1080p, the
    selection has 360p first, against the order of the table. *)
Lemma selected_table_order_counterexample :
  keys (selected ["360p"; "1080p"]) = ["360p"; "1080p"]
  /\ keys (filter (fun item => str_in (fst item) ["360p"; "1080p"])
                  resolutions) = ["1080p"; "360p"]
  /\ selected ["360p"; "1080p"]
     <> filter (fun item => str_in (fst item) ["360p"; "1080p"]) resolutions.
Proof.
  repeat split. intros H. apply (f_equal keys) in H. discriminate H.
Qed.

Lemma selected_NoDup requested : NoDup (keys (selected requested)).
Proof.
  unfold selected. destruct (str_in "all" requested).
  - exact resolutions_NoDup.
  - rewrite comprehension_keys. apply first_occurrences_NoDup.
Qed.

(** ** The run *)

Lemma spawned_app tr1 tr2 : spawned (tr1 ++ tr2) = spawned tr1 ++ spawned tr2.
Proof.
  induction tr1 as [|e tr1 IH]; simpl; [reflexivity|].
  destruct e; simpl; now rewrite IH.
Qed.

(** With a pixel format that is no string, the first turn of the loop
    ends the script: the file is announced, then [" ".join] raises. *)
Lemma for_each_no_pix_fmt script_dir subprocess_run (args : Namespace) l tr :
  pix_fmt args = EmptyList ->
  for_each l (encode_profile script_dir subprocess_run args) tr
  = match l with
    | [] => (tr, Return tt)
    | item :: _ =>
        (tr ++ [stdout ("Processing: " ++ input args ++ " -> "
                        ++ out_file args (fst item));
                traceback], Exit 1%Z)
    end.
Proof.
  intros H. destruct l as [|[name opts] l]; [reflexivity|].
  cbn [for_each]. unfold seq at 1.
  unfold encode_profile, encode_video, seq, emit, uncaught. rewrite H.
  cbn [fst]. now rewrite <- app_assoc.
Qed.

Section Run.

Variable script_dir : string.
Variable subprocess_run : nat -> list string -> completed.
Variable args : Namespace.

(** The pixel format is a string, as it is unless the command line gives
    it as [--]. *)
Variable pix : string.
Hypothesis Hpix : pix_fmt args = Str pix.

Local Abbreviation cmd_of := (profile_cmd script_dir args).
Local Abbreviation turn := (encode_profile script_dir subprocess_run args).
Local Abbreviation profile_events := (profile_events script_dir args).

Lemma spawned_profile_events l :
  spawned (flat_map profile_events l) = map cmd_of l.
Proof. induction l as [|a l IH]; simpl; now rewrite ?IH. Qed.

(** One turn, by the way its child ends. *)
Lemma encode_profile_run item tr :
  turn item tr =
    match subprocess_run (List.length (spawned tr)) (cmd_of item) with
    | returncode c =>
        if (c =? 0)%Z
        then (tr ++ profile_events item, Return tt)
        else (tr ++ profile_events item
                 ++ [stderr "Error: Encoding failed!"], Exit 1%Z)
    | raised => (tr ++ profile_events item ++ [traceback], Exit 1%Z)
    end.
Proof.
  destruct item as [name opts].
  unfold encode_profile, encode_video, profile_events, profile_cmd,
    seq, emit, run, sys_exit, uncaught, ret. rewrite Hpix.
  cbn [fst format_value].
  rewrite !spawned_app. cbn [spawned]. rewrite !app_nil_r.
  destruct (subprocess_run _ _) as [c|]; [destruct (c =? 0)%Z|];
    cbn [negb]; rewrite <- ?app_assoc; reflexivity.
Qed.

(** While the children exit with 0 the loop goes on. *)
Lemma for_each_success l : forall tr,
  (forall j item, nth_error l j = Some item ->
     subprocess_run (List.length (spawned tr) + j) (cmd_of item)
     = returncode 0) ->
  for_each l turn tr = (tr ++ flat_map profile_events l, Return tt).
Proof.
  induction l as [|a l IH]; intros tr H; simpl.
  - now rewrite app_nil_r.
  - unfold seq. rewrite encode_profile_run.
    pose proof (H 0%nat a eq_refl) as H0. rewrite Nat.add_0_r in H0.
    rewrite H0. cbn [Z.eqb]. rewrite IH.
    + now rewrite <- app_assoc.
    + intros j item Hj. rewrite spawned_app. cbn [profile_events spawned].
      rewrite length_app. cbn [List.length].
      rewrite <- Nat.add_assoc. exact (H (S j) item Hj).
Qed.

(** The first child that exits with another status ends the loop, and
    with it the script. *)
Lemma for_each_failure i : forall l tr item c,
  nth_error l i = Some item ->
  (forall j item', (j < i)%nat -> nth_error l j = Some item' ->
     subprocess_run (List.length (spawned tr) + j) (cmd_of item')
     = returncode 0) ->
  subprocess_run (List.length (spawned tr) + i) (cmd_of item)
    = returncode c ->
  c <> 0%Z ->
  for_each l turn tr
  = (tr ++ flat_map profile_events (firstn (S i) l)
        ++ [stderr "Error: Encoding failed!"], Exit 1%Z).
Proof.
  induction i as [|i IH]; intros l tr item c Hnth Hbefore Hi Hc;
    destruct l as [|a l]; try discriminate Hnth.
  - injection Hnth as ->. cbn [for_each]. unfold seq.
    rewrite encode_profile_run. rewrite Nat.add_0_r in Hi. rewrite Hi.
    apply Z.eqb_neq in Hc. rewrite Hc. cbn [firstn flat_map].
    now rewrite app_nil_r.
  - cbn [for_each]. unfold seq. rewrite encode_profile_run.
    pose proof (Hbefore 0%nat a (Nat.lt_0_succ i) eq_refl) as H0.
    rewrite Nat.add_0_r in H0. rewrite H0. cbn [Z.eqb].
    assert (Hlen : List.length (spawned (tr ++ profile_events a))
                   = S (List.length (spawned tr))).
    { rewrite spawned_app, length_app. cbn. lia. }
    rewrite (IH l (tr ++ profile_events a) item c Hnth).
    + change (firstn (S (S i)) (a :: l)) with (a :: firstn (S i) l).
      cbn [flat_map]. now rewrite <- !app_assoc.
    + intros j item' Hj Hnj. rewrite Hlen.
      replace (S (List.length (spawned tr)) + j)%nat
        with (List.length (spawned tr) + S j)%nat by lia.
      apply Hbefore; [lia | exact Hnj].
    + rewrite Hlen.
      replace (S (List.length (spawned tr)) + i)%nat
        with (List.length (spawned tr) + S i)%nat by lia.
      exact Hi.
    + exact Hc.
Qed.

(** However the children end, the commands started are those of the
    first profiles of the list, in order. *)
Lemma for_each_spawned l : forall tr,
  exists k, spawned (fst (for_each l turn tr))
            = spawned tr ++ map cmd_of (firstn k l).
Proof.
  induction l as [|a l IH]; intros tr.
  - exists 0%nat. simpl. now rewrite app_nil_r.
  - cbn [for_each]. unfold seq. rewrite encode_profile_run.
    destruct (subprocess_run _ _) as [c|]; [destruct (c =? 0)%Z|].
    + destruct (IH (tr ++ profile_events a)) as [k Hk].
      exists (S k). rewrite Hk, spawned_app. cbn [profile_events spawned].
      cbn [firstn map]. now rewrite <- app_assoc.
    + exists 1%nat. cbn [fst]. rewrite !spawned_app. simpl.
      now destruct l.
    + exists 1%nat. cbn [fst]. rewrite !spawned_app. simpl.
      now destruct l.
Qed.

(** A command the loop has started belongs to the profile at its place in
    the list, and the children of all profiles before it have exited
    with 0. *)
Lemma for_each_reached l : forall tr j cmd,
  nth_error (spawned (fst (for_each l turn tr)))
            (List.length (spawned tr) + j) = Some cmd ->
  (exists item, nth_error l j = Some item /\ cmd = cmd_of item)
  /\ forall k item', (k < j)%nat -> nth_error l k = Some item' ->
       subprocess_run (List.length (spawned tr) + k) (cmd_of item')
       = returncode 0.
Proof.
  induction l as [|a l IH]; intros tr j cmd H.
  - cbn [for_each ret fst] in H.
    assert (Hnone : nth_error (spawned tr) (List.length (spawned tr) + j)
                    = None) by (apply nth_error_None; lia).
    congruence.
  - cbn [for_each] in H. unfold seq in H. rewrite encode_profile_run in H.
    assert (Hone : forall (tl : list event),
               spawned tl = [] ->
               nth_error (spawned (tr ++ profile_events a ++ tl))
                         (List.length (spawned tr) + j) = Some cmd ->
               j = 0%nat /\ cmd = cmd_of a).
    { intros tl Htl Hn. rewrite !spawned_app, Htl in Hn.
      rewrite nth_error_app2 in Hn by lia.
      replace (List.length (spawned tr) + j - List.length (spawned tr))%nat
        with j in Hn by lia.
      destruct j as [|[|j]]; cbn in Hn; [|discriminate..].
      injection Hn as <-. now split. }
    destruct (subprocess_run (List.length (spawned tr)) (cmd_of a))
      as [c|] eqn:Ha; [destruct (c =? 0)%Z eqn:Hc|].
    + apply Z.eqb_eq in Hc. subst c.
      assert (Hlen : List.length (spawned (tr ++ profile_events a))
                     = S (List.length (spawned tr))).
      { rewrite spawned_app, length_app. cbn. lia. }
      destruct j as [|j].
      * destruct (for_each_spawned l (tr ++ profile_events a)) as [k Hk].
        rewrite Hk, spawned_app, <- app_assoc in H.
        rewrite nth_error_app2 in H by lia.
        rewrite Nat.add_0_r, Nat.sub_diag in H. cbn in H.
        injection H as <-. split; [exists a; now split|].
        intros k' item' Hk'. lia.
      * replace (List.length (spawned tr) + S j)%nat
          with (List.length (spawned (tr ++ profile_events a)) + j)%nat
          in H by lia.
        destruct (IH _ _ _ H) as [Hitem Hbefore]. split; [exact Hitem|].
        intros [|k] item' Hk Hn.
        -- injection Hn as <-. now rewrite Nat.add_0_r.
        -- replace (List.length (spawned tr) + S k)%nat
             with (List.length (spawned (tr ++ profile_events a)) + k)%nat
             by lia.
           apply Hbefore; [lia | exact Hn].
    + cbn [fst] in H.
      destruct (Hone [stderr "Error: Encoding failed!"] eq_refl H)
        as [-> ->].
      split; [exists a; now split|]. intros k item' Hk. lia.
    + cbn [fst] in H. destruct (Hone [traceback] eq_refl H) as [-> ->].
      split; [exists a; now split|]. intros k item' Hk. lia.
Qed.


End Run.

Lemma last_map_firstn {A B} (f : A -> B) (l : list A) : forall i x d,
  nth_error l i = Some x -> last (map f (firstn (S i) l)) d = f x.
Proof.
  induction l as [|a l IH]; intros [|i] x d H; try discriminate H.
  - injection H as ->. now destruct l.
  - cbn [nth_error] in H. specialize (IH i x d H).
    destruct l as [|b l]; [destruct i; discriminate H|].
    exact IH.
Qed.

Section Program.

Variable int : string -> option Z.
Variable script_dir : string.
Variable subprocess_run : nat -> list string -> completed.

Local Abbreviation cmd_of := (profile_cmd script_dir).
Local Abbreviation script := (main int script_dir subprocess_run).

Lemma main_parsed argv args :
parse_args int argv = Ok args ->
script argv
= match for_each (selected (resolutions_arg args))
          (encode_profile script_dir subprocess_run args) [] with
  | (tr, Return _) => (tr ++ [stdout "Encoding complete!"], 0%Z)
  | (tr, Exit status) => (tr, status)
  end.
Proof.
intros H. unfold main, encode_all, seq, emit. rewrite H.
now destruct (for_each _ _ []) as [tr [[]|status]].
Qed.

Lemma script_spawned argv args :
  parse_args int argv = Ok args ->
  spawned (fst (script argv))
  = spawned (fst (for_each (selected (resolutions_arg args))
                    (encode_profile script_dir subprocess_run args) [])).
Proof.
  intros H. rewrite (main_parsed _ _ H).
  destruct (for_each _ _ []) as [tr [[]|status]]; cbn [fst];
    [|reflexivity].
  rewrite spawned_app. cbn [spawned]. apply app_nil_r.
Qed.

(** With a pixel format that is no string nothing is handed to
    [subprocess.run]. *)
Lemma spawned_no_pix_fmt argv args :
  parse_args int argv = Ok args ->
  pix_fmt args = EmptyList ->
  spawned (fst (script argv)) = [].
Proof.
  intros Hparse Hpix.
  rewrite (script_spawned _ _ Hparse), (for_each_no_pix_fmt _ _ _ _ _ Hpix).
  now destruct (selected (resolutions_arg args)).
Qed.

(** A run that has started a child has a string for pixel format. *)
Lemma started_pix_fmt argv args i cmd :
  parse_args int argv = Ok args ->
  nth_error (spawned (fst (script argv))) i = Some cmd ->
  exists pix, pix_fmt args = Str pix.
Proof.
  intros Hparse Hcmd. destruct (pix_fmt args) as [pix|] eqn:Hpix; [eauto|].
  rewrite (spawned_no_pix_fmt _ _ Hparse Hpix) in Hcmd.
  destruct i; discriminate Hcmd.
Qed.

(** C1. When a child the script has started exits with a status other than
    0, the script prints [Error: Encoding failed!] on the error stream right
    after it and ends with exit status 1.  That child is the last one
    started: the commands of the run are those of the selected profiles up
    to it, and none of a later profile. *)
Theorem failure_stops_run argv args i cmd c :
  parse_args int argv = Ok args ->
  nth_error (spawned (fst (script argv))) i = Some cmd ->
  subprocess_run i cmd = returncode c ->
  c <> 0%Z ->
  script argv
  = (flat_map (profile_events script_dir args)
       (firstn (S i) (selected (resolutions_arg args)))
       ++ [stderr "Error: Encoding failed!"], 1%Z)
  /\ spawned (fst (script argv))
     = map (cmd_of args) (firstn (S i) (selected (resolutions_arg args)))
  /\ List.length (spawned (fst (script argv))) = S i
  /\ last (spawned (fst (script argv))) [] = cmd.
Proof.
  intros Hparse Hcmd Hi Hc.
  destruct (started_pix_fmt _ _ _ _ Hparse Hcmd) as [pix Hpix].
  rewrite (script_spawned _ _ Hparse) in Hcmd.
  destruct (for_each_reached script_dir subprocess_run args pix Hpix
              _ [] i cmd Hcmd)
    as [[item [Hnth ->]] Hbefore].
  cbn [spawned List.length Nat.add] in Hbefore.
  rewrite (main_parsed _ _ Hparse).
  rewrite (for_each_failure script_dir subprocess_run args pix Hpix
             i _ [] item c Hnth Hbefore Hi Hc).
  cbn [app fst]. split; [reflexivity|].
  rewrite spawned_app, spawned_profile_events. cbn [spawned].
  rewrite app_nil_r. split; [reflexivity|]. split.
  - rewrite length_map, length_firstn.
    apply Nat.min_l. apply Nat.le_succ_l.
    apply nth_error_Some. now rewrite Hnth.
  - now apply last_map_firstn.
Qed.


(** C8. The [i]-th command the script starts belongs to the [i]-th
    selected profile, and the output file it names, its last string, is
    the output argument followed by [_], the name of the profile and
    [.mp4]. *)
Theorem output_file_name argv args i cmd :
  parse_args int argv = Ok args ->
  nth_error (spawned (fst (script argv))) i = Some cmd ->
  exists name opts,
    nth_error (selected (resolutions_arg args)) i = Some (name, opts)
    /\ cmd = cmd_of args (name, opts)
    /\ last cmd ""
       = (format_value (output args) ++ "_" ++ name ++ ".mp4")%string.
Proof.
  intros Hparse Hcmd.
  destruct (started_pix_fmt _ _ _ _ Hparse Hcmd) as [pix Hpix].
  rewrite (script_spawned _ _ Hparse) in Hcmd.
  destruct (for_each_reached script_dir subprocess_run args pix Hpix
              _ [] i cmd Hcmd)
    as [[[name opts] [Hnth ->]] _].
  exists name, opts. split; [exact Hnth|]. split; [reflexivity|].
  unfold profile_cmd. apply ffmpeg_cmd_last.
Qed.

End Program.

(** ** The command line *)

Lemma action_eqb_eq a b : action_eqb a b = true <-> a = b.
Proof. unfold action_eqb. destruct (action_eq_dec a b); split; congruence. Qed.

Lemma action_eqb_refl a : action_eqb a a = true.
Proof. now apply action_eqb_eq. Qed.

Lemma bind_Ok {A B} (r : result A) (k : A -> result B) b :
  bind r k = Ok b -> exists a, r = Ok a /\ k a = Ok b.
Proof. destruct r; simpl; [eauto | discriminate]. Qed.

Lemma bind_Stop {A B} (r : result A) (k : A -> result B) e :
  bind r k = Stop e -> r = Stop e \/ exists a, r = Ok a /\ k a = Stop e.
Proof. destruct r; simpl; [eauto | intros [= ->]; now left]. Qed.

Lemma classify_tokens pre : forall toks a,
  classify pre = Ok toks ->
  existsb (token_of a) toks = existsb (names a) pre.
Proof.
  induction pre as [|s r IH]; intros toks a H; simpl in H.
  - now injection H as <-.
  - apply bind_Ok in H. destruct H as [t [Ht H]].
    apply bind_Ok in H. destruct H as [ts [Hts H]].
    injection H as <-. cbn [existsb]. rewrite (IH ts a Hts). f_equal.
    unfold names. destruct (parse_optional s) as [|a' os e|];
      try discriminate Ht; now injection Ht as <-.
Qed.

Lemma classify_Stop pre e :
  classify pre = Stop e -> exists s, e = usage_error (ambiguous_option s).
Proof.
  induction pre as [|s r IH]; simpl; [discriminate|].
  intros H. apply bind_Stop in H. destruct H as [H | [t [_ H]]].
  - destruct (parse_optional s); try discriminate H.
    injection H as <-. now exists s.
  - apply bind_Stop in H. destruct H as [H | [ts [_ H]]];
      [now apply IH | discriminate H].
Qed.

Lemma token_of_option a t : token_of a t = true -> is_option t = true.
Proof. now destruct t. Qed.

Lemma no_option_no_token a l :
  has_option l = false -> existsb (token_of a) l = false.
Proof.
  induction l as [|t l IH]; simpl; [reflexivity|].
  intros H. apply orb_false_iff in H. destruct H as [Ht Hl].
  rewrite (IH Hl), orb_false_r.
  destruct (token_of a t) eqn:E; [|reflexivity].
  apply token_of_option in E. congruence.
Qed.

Lemma leading_args_tokens l :
  Forall (fun t => is_option t = false)
         (firstn (List.length (leading_args l)) l).
Proof.
  induction l as [|[s|a os e] l IH]; simpl; constructor; auto.
Qed.

Lemma check_conflicts_Ok a st st' :
  check_conflicts a st = Ok st' ->
  st' = with_seen a st
  /\ forall c, In c (action_conflicts a) -> seen c st = false.
Proof.
  unfold check_conflicts.
  destruct (find _ (action_conflicts a)) as [c|] eqn:E; [discriminate|].
  intros [= <-]. split; [reflexivity|].
  intros c Hc. exact (find_none _ _ E c Hc).
Qed.

Lemma check_conflicts_Stop a st e :
  check_conflicts a st = Stop e ->
  exists c, e = usage_error (not_allowed_with a c).
Proof.
  unfold check_conflicts.
  destruct (find _ (action_conflicts a)) as [c|]; [|discriminate].
  intros [= <-]. now exists c.
Qed.

Section ParserFacts.

Variable int : string -> option Z.

Lemma take_store_Ok d v st st' :
take_store int d v st = Ok st' ->
seen_non_default_actions st' = a_store d :: seen_non_default_actions st
/\ st_input st' = st_input st /\ st_output st' = st_output st
/\ extras st' = extras st
/\ resolutions_arg (st_options st') = resolutions_arg (st_options st)
/\ (d <> d_soft -> soft (st_options st') = soft (st_options st))
/\ (d <> d_burn -> burn (st_options st') = burn (st_options st))
/\ forall c, In c (action_conflicts (a_store d)) -> seen c st = false.
Proof.
destruct d; cbn [take_store]; unfold get_int; intros H;
  try (destruct (v =? "--")%string;
       [|destruct (int v); [|discriminate H]]; cbn [bind] in H);
  apply bind_Ok in H; destruct H as [st1 [H1 H]];
  apply check_conflicts_Ok in H1; destruct H1 as [-> Hc];
  injection H as <-; cbn; repeat split; auto; congruence.
Qed.

Lemma take_store_Stop d v st e :
take_store int d v st = Stop e -> exists u, e = usage_error u.
Proof.
destruct d; cbn [take_store]; unfold get_int, error; intros H;
  try (destruct (v =? "--")%string;
       [|destruct (int v); [|injection H as <-; eauto]]; cbn [bind] in H);
  (apply bind_Stop in H; destruct H as [H | [st1 [_ H]]];
   [apply check_conflicts_Stop in H; destruct H as [c ->]; eauto
   | discriminate H]).
Qed.

Lemma take_resolutions_Ok vs st st' :
take_resolutions vs st = Ok st' ->
seen_non_default_actions st' = a_resolutions :: seen_non_default_actions st
/\ st_input st' = st_input st /\ st_output st' = st_output st
/\ extras st' = extras st
/\ resolutions_arg (st_options st') = remove_dashes vs
/\ soft (st_options st') = soft (st_options st)
/\ burn (st_options st') = burn (st_options st)
/\ Forall (fun r => In r resolution_choices) (remove_dashes vs).
Proof.
unfold take_resolutions.
destruct (find _ (remove_dashes vs)) as [v|] eqn:E; [discriminate|].
intros H. apply bind_Ok in H. destruct H as [st1 [H1 H]].
apply check_conflicts_Ok in H1. destruct H1 as [-> _].
injection H as <-. cbn. repeat split; auto.
apply Forall_forall. intros r Hr.
pose proof (find_none _ _ E r Hr) as Hn.
apply negb_false_iff in Hn. exact (proj1 (str_in_In _ _) Hn).
Qed.

Lemma take_resolutions_Stop vs st e :
take_resolutions vs st = Stop e -> exists u, e = usage_error u.
Proof.
unfold take_resolutions, error.
destruct (find _ (remove_dashes vs)) as [v|]; [intros [= <-]; eauto|].
intros H. apply bind_Stop in H. destruct H as [H | [st1 [_ H]]].
- apply check_conflicts_Stop in H. destruct H as [c ->]. eauto.
- discriminate H.
Qed.

End ParserFacts.

Section ParserRuns.

Variable int : string -> option Z.

Lemma consume_optional_Ok a os e following st st' n :
consume_optional int a os e following st = Ok (st', n) ->
Forall (fun t => is_option t = false) (firstn n following)
/\ ((a = None /\ st' = with_extras [os] st)
    \/ (exists d v, a = Some (a_store d) /\ take_store int d v st = Ok st')
    \/ (exists vs,
          a = Some a_resolutions /\ take_resolutions vs st = Ok st')).
Proof.
destruct a as [[|d|]|]; cbn [consume_optional].
- destruct e as [e|]; [|discriminate].
  destruct (_ && _); discriminate.
- destruct e as [e|].
  + intros H. apply bind_Ok in H. destruct H as [st1 [H1 H]].
    injection H as <- <-. split; [constructor|]. right. left. eauto.
  + destruct following as [|[v|a os' e'] following]; try discriminate.
    intros H. apply bind_Ok in H. destruct H as [st1 [H1 H]].
    injection H as <- <-. split.
    * repeat constructor.
    * right. left. eauto.
- destruct e as [e|].
  + intros H. apply bind_Ok in H. destruct H as [st1 [H1 H]].
    injection H as <- <-. split; [constructor|]. right. right. eauto.
  + destruct (leading_args following) as [|v vs] eqn:E; [discriminate|].
    intros H. apply bind_Ok in H. destruct H as [st1 [H1 H]].
    injection H as <- <-. split.
    * change (S (List.length vs)) with (List.length (v :: vs)).
      rewrite <- E. apply leading_args_tokens.
    * right. right. eauto.
- intros [= <- <-]. split; [constructor|]. now left.
Qed.

Lemma consume_optional_Stop a os e following st x :
consume_optional int a os e following st = Stop x ->
(x = print_help /\ a = Some a_help) \/ exists u, x = usage_error u.
Proof.
destruct a as [[|d|]|]; cbn [consume_optional]; unfold error.
- destruct e as [e|].
  + destruct (_ && _); intros [= <-]; eauto.
  + intros [= <-]. now left.
- destruct e as [e|].
  + intros H. apply bind_Stop in H. destruct H as [H | [st1 [_ H]]];
      [right; eapply take_store_Stop; eauto | discriminate H].
  + destruct following as [|[v|a os' e'] following];
      try (intros [= <-]; eauto).
    intros H. apply bind_Stop in H. destruct H as [H | [st1 [_ H]]];
      [right; eapply take_store_Stop; eauto | discriminate H].
- destruct e as [e|].
  + intros H. apply bind_Stop in H. destruct H as [H | [st1 [_ H]]];
      [right; eapply take_resolutions_Stop; eauto | discriminate H].
  + destruct (leading_args following) as [|v vs];
      [intros [= <-]; eauto|].
    intros H. apply bind_Stop in H. destruct H as [H | [st1 [_ H]]];
      [right; eapply take_resolutions_Stop; eauto | discriminate H].
- discriminate.
Qed.

Lemma consume_positional_seen a st :
seen_non_default_actions (consume_positional a st)
= seen_non_default_actions st
/\ st_options (consume_positional a st) = st_options st.
Proof.
unfold consume_positional.
destruct (st_input st); [destruct (st_output st)|]; now split.
Qed.

(** Once both members of the exclusive group are on the command line, the
  loop cannot come to its end. *)
Lemma parse_loop_conflict l : forall skip st,
Forall (fun t => is_option t = false) (firstn skip l) ->
seen (a_store d_soft) st && seen (a_store d_burn) st = false ->
seen (a_store d_soft) st || existsb (token_of (a_store d_soft)) l = true ->
seen (a_store d_burn) st || existsb (token_of (a_store d_burn)) l = true ->
exists e, parse_loop int l skip st = Stop e.
Proof.
induction l as [|t rest IH]; intros skip st Hskip Hinv Hs Hb.
- cbn [existsb] in Hs, Hb. rewrite orb_false_r in Hs, Hb.
  rewrite Hs, Hb in Hinv. discriminate Hinv.
- destruct skip as [|k].
  + cbn [parse_loop].
    destruct (has_option (t :: rest)) eqn:Hopt.
    * destruct t as [a|a os e].
      -- apply IH; [constructor| | |];
           unfold seen in *;
           rewrite ?(proj1 (consume_positional_seen a st)); assumption.
      -- destruct (consume_optional int a os e rest st) as [[st' n]|x]
           eqn:Hc; [|cbn [bind]; eauto].
         cbn [bind].
         apply consume_optional_Ok in Hc. destruct Hc as [Hn Hc].
         cbn [existsb token_of] in Hs, Hb.
         apply IH; [exact Hn| | |];
           destruct Hc as [[-> ->] | [[d [v [-> Hd]]] | [vs [-> Hr]]]];
           try (apply take_store_Ok in Hd;
                destruct Hd as [Hseen [_ [_ [_ [_ [_ [_ Hconf]]]]]]]);
           try (apply take_resolutions_Ok in Hr; destruct Hr as [Hseen _]);
           unfold seen in *; rewrite ?Hseen; cbn [existsb with_extras
             seen_non_default_actions] in *;
           try assumption.
         ++ destruct d; cbn [action_eqb] in *;
              try (pose proof (Hconf _ (or_introl eq_refl)) as Hx;
                   unfold seen in Hx; rewrite Hx);
              cbn in *; rewrite ?andb_false_r; try assumption; reflexivity.
         ++ destruct d; cbn in *; try assumption; reflexivity.
         ++ destruct d; cbn in *; try assumption; reflexivity.
    * rewrite (no_option_no_token _ _ Hopt) in Hs.
      rewrite (no_option_no_token _ _ Hopt) in Hb.
      rewrite orb_false_r in Hs, Hb.
      rewrite Hs, Hb in Hinv. discriminate Hinv.
  + cbn [parse_loop]. cbn [firstn] in Hskip.
    inversion Hskip as [|? ? Ht Hrest]; subst.
    destruct t as [a|a os e]; [|discriminate Ht].
    apply IH; assumption.
Qed.




End ParserRuns.

Section ParserResults.

Variable int : string -> option Z.

(** The loop shows the help only for a token that names the help option. *)
Lemma parse_loop_help l : forall skip st,
parse_loop int l skip st = Stop print_help ->
existsb (token_of a_help) l = true.
Proof.
induction l as [|t rest IH]; intros skip st H; [discriminate H|].
cbn [parse_loop] in H. cbn [existsb].
destruct skip as [|k].
- destruct (has_option (t :: rest)); [|discriminate H].
  destruct t as [a|a os e].
  + rewrite (IH _ _ H). apply orb_true_r.
  + apply bind_Stop in H. destruct H as [H | [[st' n] [_ H]]].
    * apply consume_optional_Stop in H.
      destruct H as [[_ ->] | [u Hu]]; [reflexivity | discriminate Hu].
    * rewrite (IH _ _ H). apply orb_true_r.
- rewrite (IH _ _ H). apply orb_true_r.
Qed.

(** What holds of the option values at the start and is kept by every
  option taken holds of the namespace. *)
Lemma parse_loop_invariant (Q : Options -> list action -> Prop) :
(forall d v st st',
   Q (st_options st) (seen_non_default_actions st) ->
   take_store int d v st = Ok st' ->
   Q (st_options st') (seen_non_default_actions st')) ->
(forall vs st st',
   Q (st_options st) (seen_non_default_actions st) ->
   take_resolutions vs st = Ok st' ->
   Q (st_options st') (seen_non_default_actions st')) ->
forall l skip st st' rest,
  Q (st_options st) (seen_non_default_actions st) ->
  parse_loop int l skip st = Ok (st', rest) ->
  Q (st_options st') (seen_non_default_actions st').
Proof.
intros Hstore Hres.
induction l as [|t l IH]; intros skip st st' rest HQ H; cbn [parse_loop] in H.
- now injection H as <- <-.
- destruct skip as [|k]; [|eapply IH; eauto].
  destruct (has_option (t :: l)); [|now injection H as <- <-].
  destruct t as [a|a os e].
  + eapply IH; [|exact H].
    destruct (consume_positional_seen a st) as [-> ->]. exact HQ.
  + apply bind_Ok in H. destruct H as [[st1 n] [Hc H]].
    eapply IH; [|exact H].
    apply consume_optional_Ok in Hc.
    destruct Hc as [_ [[_ ->] | [[d [v [_ Hd]]] | [vs [_ Hr]]]]]; eauto.
Qed.

Lemma consume_positionals_end_options st rest post :
st_options (consume_positionals_end st rest post) = st_options st
/\ seen_non_default_actions (consume_positionals_end st rest post)
   = seen_non_default_actions st.
Proof.
unfold consume_positionals_end.
destruct (st_input st) as [i0|]; [destruct (st_output st) as [o0|]|];
  destruct rest as [|a [|b rest']]; destruct post as [[|c [|d post']]|];
  now split.
Qed.

Lemma parse_args_invariant (Q : Options -> list action -> Prop) :
Q defaults [] ->
(forall d v st st',
   Q (st_options st) (seen_non_default_actions st) ->
   take_store int d v st = Ok st' ->
   Q (st_options st') (seen_non_default_actions st')) ->
(forall vs st st',
   Q (st_options st) (seen_non_default_actions st) ->
   take_resolutions vs st = Ok st' ->
   Q (st_options st') (seen_non_default_actions st')) ->
forall argv args,
  parse_args int argv = Ok args -> exists s, Q (options args) s.
Proof.
intros Hinit Hstore Hres argv args H. unfold parse_args in H.
destruct (split_dashes argv) as [pre post].
apply bind_Ok in H. destruct H as [toks [_ H]].
apply bind_Ok in H. destruct H as [[st rest] [Hloop H]].
pose proof (parse_loop_invariant Q Hstore Hres _ _ initial _ _ Hinit Hloop)
  as HQ.
destruct (consume_positionals_end_options st rest post) as [Ho Hs].
rewrite <- Ho, <- Hs in HQ.
destruct (st_input _) as [i|]; [|discriminate H].
destruct (st_output _) as [o|]; [|discriminate H].
destruct (extras _); [|discriminate H].
injection H as <-. cbn [options]. eauto.
Qed.

(** Every name in [args.resolutions] is one of the choices. *)
Lemma parsed_resolutions_choices argv args :
parse_args int argv = Ok args ->
Forall (fun r => In r resolution_choices) (resolutions_arg args).
Proof.
intros H.
destruct (parse_args_invariant
            (fun o _ => Forall (fun r => In r resolution_choices)
                               (resolutions_arg o))) with (4 := H)
  as [_ HQ]; [| | |exact HQ].
- repeat constructor.
- intros d v st st' HQ Hd. apply take_store_Ok in Hd.
  destruct Hd as [_ [_ [_ [_ [-> _]]]]]. exact HQ.
- intros vs st st' _ Hr. apply take_resolutions_Ok in Hr.
  destruct Hr as [_ [_ [_ [_ [-> [_ [_ Hf]]]]]]]. exact Hf.
Qed.

(** [args.soft] and [args.burn] are never both set. *)
Lemma parsed_exclusive argv args :
parse_args int argv = Ok args -> soft args = None \/ burn args = None.
Proof.
intros H.
destruct (parse_args_invariant
            (fun o s =>
               (soft o <> None -> In (a_store d_soft) s)
               /\ (burn o <> None -> In (a_store d_burn) s)
               /\ ~ (In (a_store d_soft) s /\ In (a_store d_burn) s)))
  with (4 := H) as [s [Hs [Hb Hn]]].
- cbn. tauto.
- intros d v st st' [Hs [Hb Hn]] Hd. apply take_store_Ok in Hd.
  destruct Hd as [-> [_ [_ [_ [_ [Hsoft [Hburn Hconf]]]]]]].
  assert (Hseen : forall c, seen c st = false ->
                            ~ In c (seen_non_default_actions st)).
  { intros c Hc Hin. unfold seen in Hc.
    rewrite (proj2 (existsb_exists _ _)) in Hc; [discriminate|].
    exists c. split; [exact Hin | apply action_eqb_refl]. }
  destruct d;
    try (rewrite Hsoft, Hburn by discriminate; cbn [In];
         repeat split; intros; try (right; tauto);
         intuition discriminate);
    pose proof (Hseen _ (Hconf _ (or_introl eq_refl))) as Hx;
    [rewrite Hburn by discriminate | rewrite Hsoft by discriminate];
    cbn [In]; repeat split; intros; try tauto;
    intuition discriminate.
- intros vs st st' [Hs [Hb Hn]] Hr. apply take_resolutions_Ok in Hr.
  destruct Hr as [-> [_ [_ [_ [_ [-> [-> _]]]]]]].
  cbn [In]. repeat split; intros; try (right; tauto).
  intuition discriminate.
- destruct (soft args); [|now left].
  destruct (burn args); [|now right].
  exfalso. apply Hn. split; [apply Hs | apply Hb]; discriminate.
Qed.

(** A command line with both [--soft] and [--burn] does not pass the
  parser. *)
Lemma parse_args_conflict argv :
supplies (a_store d_soft) argv = true ->
supplies (a_store d_burn) argv = true ->
exists e, parse_args int argv = Stop e.
Proof.
unfold supplies, parse_args. intros Hs Hb.
destruct (split_dashes argv) as [pre post]. cbn [fst] in Hs, Hb.
destruct (classify pre) as [toks|e] eqn:Hc; [|cbn [bind]; eauto].
cbn [bind].
destruct (parse_loop_conflict int toks 0%nat initial) as [e He].
- constructor.
- reflexivity.
- now rewrite (classify_tokens _ _ _ Hc).
- now rewrite (classify_tokens _ _ _ Hc).
- rewrite He. cbn [bind]. eauto.
Qed.




(** The parser shows the help only when the command line supplies the
  help option. *)
Lemma parse_args_help argv :
parse_args int argv = Stop print_help -> supplies a_help argv = true.
Proof.
unfold supplies, parse_args. intros H.
destruct (split_dashes argv) as [pre post]. cbn [fst].
apply bind_Stop in H. destruct H as [H | [toks [Hc H]]].
- apply classify_Stop in H. destruct H as [s Hs]. discriminate Hs.
- rewrite <- (classify_tokens _ _ _ Hc).
  apply bind_Stop in H. destruct H as [H | [[st rest] [_ H]]].
  + exact (parse_loop_help _ _ _ H).
  + destruct (st_input _); [destruct (st_output _)|];
      try discriminate H.
    destruct (extras _); discriminate H.
Qed.

End ParserResults.

(** ** The script on a command line *)

Lemma sample_parsed : parse_args decimal sample_argv = Ok sample_args.
Proof. reflexivity. Qed.

Lemma failure_stops_run_witness :
  parse_args decimal sample_argv = Ok sample_args
  /\ nth_error (spawned (fst (main decimal sample_dir first_fails
                                   sample_argv))) 0
     = Some (profile_cmd sample_dir sample_args profile_720p)
  /\ first_fails 0 (profile_cmd sample_dir sample_args profile_720p)
     = returncode 1
  /\ snd (main decimal sample_dir first_fails sample_argv) = 1%Z
  /\ List.length (spawned (fst (main decimal sample_dir first_fails
                                     sample_argv))) = 1%nat.
Proof.
  split; [reflexivity|]. split; [reflexivity|]. split; [reflexivity|].
  destruct (failure_stops_run decimal sample_dir first_fails
              sample_argv sample_args 0
              (profile_cmd sample_dir sample_args profile_720p) 1)
    as [H1 [H2 [H3 H4]]].
  - reflexivity.
  - reflexivity.
  - reflexivity.
  - discriminate.
  - split; [now rewrite H1 | exact H3].
Defined.



Lemma output_file_name_witness :
  parse_args decimal sample_argv = Ok sample_args
  /\ nth_error (spawned (fst (main decimal sample_dir all_succeed
                                   sample_argv))) 1
     = Some (profile_cmd sample_dir sample_args profile_480p)
  /\ last (profile_cmd sample_dir sample_args profile_480p) ""
     = "out_480p.mp4".
Proof.
  split; [reflexivity|]. split; [reflexivity|].
  destruct (output_file_name decimal sample_dir all_succeed
              sample_argv sample_args 1
              (profile_cmd sample_dir sample_args profile_480p))
    as [name [opts [Hn [_ Hl]]]].
  - reflexivity.
  - reflexivity.
  - injection Hn as <- _. exact Hl.
Defined.

(** C2, as amended.  A command line that supplies both [--soft] and
    [--burn] does not pass the parser: no namespace comes out of it and the
    script starts no child.  The run ends with a usage error and exit
    status 2, unless the command line also supplies the help option, in
    which case it may end with the help and exit status 0. *)
Theorem soft_and_burn_rejected
    (int : string -> option Z) (script_dir : string)
    (subprocess_run : nat -> list string -> completed)
    (argv : list string) :
  supplies (a_store d_soft) argv = true ->
  supplies (a_store d_burn) argv = true ->
  (exists e, parse_args int argv = Stop e)
  /\ spawned (fst (main int script_dir subprocess_run argv)) = []
  /\ ((exists u, main int script_dir subprocess_run argv
                 = ([usage_message u], 2%Z))
      \/ (supplies a_help argv = true
          /\ main int script_dir subprocess_run argv
             = ([help_message], 0%Z))).
Proof.
  intros Hs Hb.
  destruct (parse_args_conflict int argv Hs Hb) as [e He].
  split; [eauto|]. unfold main. rewrite He.
  destruct e as [|u].
  - split; [reflexivity|]. right. split; [|reflexivity].
    now apply (parse_args_help int).
  - split; [reflexivity|]. left. eauto.
Qed.

Lemma soft_and_burn_rejected_witness :
  supplies (a_store d_soft)
           ["in.mp4"; "out"; "--soft"; "a.srt"; "--burn=b.srt"] = true
  /\ supplies (a_store d_burn)
              ["in.mp4"; "out"; "--soft"; "a.srt"; "--burn=b.srt"] = true
  /\ spawned (fst (main decimal sample_dir all_succeed
                        ["in.mp4"; "out"; "--soft"; "a.srt"; "--burn=b.srt"]))
     = [].
Proof.
  split; [reflexivity|]. split; [reflexivity|].
  apply (soft_and_burn_rejected decimal sample_dir all_succeed
           ["in.mp4"; "out"; "--soft"; "a.srt"; "--burn=b.srt"]);
    reflexivity.
Defined.

(** C2 as first stated does not hold: with the help option in front, a
    command line that supplies both [--soft] and [--burn] is not rejected;
    the run shows the help and ends with exit status 0. *)
Lemma help_before_conflict_counterexample :
  supplies (a_store d_soft) ["-h"; "--soft"; "a.srt"; "--burn"; "b.srt"]
  = true
  /\ supplies (a_store d_burn) ["-h"; "--soft"; "a.srt"; "--burn"; "b.srt"]
     = true
  /\ parse_args decimal ["-h"; "--soft"; "a.srt"; "--burn"; "b.srt"]
     = Stop print_help
  /\ main decimal sample_dir all_succeed
          ["-h"; "--soft"; "a.srt"; "--burn"; "b.srt"]
     = ([help_message], 0%Z).
Proof. repeat split; reflexivity. Qed.




(** * Further properties *)

(** ** The argument list *)

(** X1. An empty subtitle path counts as no subtitle: with [''] for the
    soft subtitle the argument list is the one built with [None], and the
    same holds for the burnt-in subtitle.  The empty list, which is what
    the parser stores for [--soft=--] and [--burn=--], counts as none as
    well. *)
Theorem empty_subtitle_is_none
    (input_file output_file font_path : string) (text : arg_value)
    (x y fontsize : int_value) (fontcolor : arg_value)
    (bitrate audio_bitrate maxrate bufsize pix_fmt : string)
    (sample_rate : Z) (resolution : string)
    (soft_sub burn_sub : option arg_value) (lang : arg_value) :
  ffmpeg_cmd input_file output_file font_path text x y fontsize fontcolor
             bitrate audio_bitrate maxrate bufsize pix_fmt sample_rate
             resolution (Some (Str "")) burn_sub lang
  = ffmpeg_cmd input_file output_file font_path text x y fontsize fontcolor
               bitrate audio_bitrate maxrate bufsize pix_fmt sample_rate
               resolution None burn_sub lang
  /\ ffmpeg_cmd input_file output_file font_path text x y fontsize fontcolor
                bitrate audio_bitrate maxrate bufsize pix_fmt sample_rate
                resolution soft_sub (Some (Str "")) lang
     = ffmpeg_cmd input_file output_file font_path text x y fontsize
                  fontcolor bitrate audio_bitrate maxrate bufsize pix_fmt
                  sample_rate resolution soft_sub None lang
  /\ ffmpeg_cmd input_file output_file font_path text x y fontsize fontcolor
                bitrate audio_bitrate maxrate bufsize pix_fmt sample_rate
                resolution (Some EmptyList) burn_sub lang
     = ffmpeg_cmd input_file output_file font_path text x y fontsize
                  fontcolor bitrate audio_bitrate maxrate bufsize pix_fmt
                  sample_rate resolution None burn_sub lang
  /\ ffmpeg_cmd input_file output_file font_path text x y fontsize fontcolor
                bitrate audio_bitrate maxrate bufsize pix_fmt sample_rate
                resolution soft_sub (Some EmptyList) lang
     = ffmpeg_cmd input_file output_file font_path text x y fontsize
                  fontcolor bitrate audio_bitrate maxrate bufsize pix_fmt
                  sample_rate resolution soft_sub None lang.
Proof.
  split; [reflexivity|]. split; [|split; [reflexivity|]];
    unfold ffmpeg_cmd; destruct (truthy soft_sub); reflexivity.
Qed.

(** ** The selection as a mapping *)

Lemma lookup_dict_set_same {V} k (v : V) d : lookup k (dict_set k v d) = Some v.
Proof.
  induction d as [|[k' v'] d IH]; simpl.
  - now rewrite String.eqb_refl.
  - destruct (k =? k')%string eqn:E; simpl; now rewrite E.
Qed.

Lemma lookup_dict_set_other {V} k (v : V) d n :
  n <> k -> lookup n (dict_set k v d) = lookup n d.
Proof.
  intros Hn. apply String.eqb_neq in Hn.
  induction d as [|[k' v'] d IH]; simpl.
  - now rewrite Hn.
  - destruct (k =? k')%string eqn:E; simpl.
    + apply String.eqb_eq in E. subst k'. now rewrite Hn.
    + now rewrite IH.
Qed.

Lemma lookup_comprehension_from requested : forall acc n,
  lookup n (fold_left comprehension_step requested acc)
  = if str_in n requested && known n then lookup n resolutions
    else lookup n acc.
Proof.
  induction requested as [|a l IH]; intros acc n; [reflexivity|].
  cbn [fold_left]. rewrite IH, str_in_cons.
  destruct (str_in n l && known n) eqn:El.
  - apply andb_true_iff in El. destruct El as [Hl Hk].
    now rewrite Hl, Hk, orb_true_r.
  - unfold comprehension_step.
    destruct (n =? a)%string eqn:Ea.
    + apply String.eqb_eq in Ea. subst a. cbn [orb].
      destruct (lookup n resolutions) as [p|] eqn:Ep.
      * rewrite (lookup_Some_known _ _ _ Ep : known n = true).
        apply lookup_dict_set_same.
      * now rewrite (lookup_None_known _ _ Ep : known n = false).
    + cbn [orb]. rewrite El.
      destruct (lookup a resolutions) as [p|]; [|reflexivity].
      apply lookup_dict_set_other. now apply String.eqb_neq.
Qed.

(** X2. The selection maps a name to the profile the table has for it when
    the name is requested, or [all] is, and has nothing for any other
    name. *)
Theorem selected_lookup (requested : list string) (n : string) :
  lookup n (selected requested)
  = if str_in "all" requested || str_in n requested
    then lookup n resolutions
    else None.
Proof.
  unfold selected. destruct (str_in "all" requested); [reflexivity|].
  unfold comprehension. rewrite lookup_comprehension_from. cbn [orb lookup].
  destruct (str_in n requested); [|reflexivity].
  destruct (known n) eqn:Hk; [reflexivity|]. cbn [andb].
  destruct (lookup n resolutions) as [p|] eqn:Ep; [|reflexivity].
  rewrite (lookup_Some_known _ _ _ Ep : known n = true) in Hk.
  discriminate Hk.
Qed.

Lemma lookup_not_in {V} n (d : dict V) :
  ~ In n (keys d) -> lookup n d = None.
Proof.
  induction d as [|[k v] d IH]; simpl; [reflexivity|].
  intros H. destruct (n =? k)%string eqn:E.
  - apply String.eqb_eq in E. subst k. exfalso. apply H. now left.
  - apply IH. intros Hin. apply H. now right.
Qed.

(** Two dictionaries with the same keys, in the same order, and the same
    value under every key are the same. *)
Lemma dict_ext {V} (d1 : dict V) : forall d2,
  keys d1 = keys d2 -> NoDup (keys d1) ->
  (forall n, lookup n d1 = lookup n d2) -> d1 = d2.
Proof.
  induction d1 as [|[k v] d1 IH]; intros [|[k' v'] d2] Hk Hnd Hl;
    try discriminate Hk; [reflexivity|].
  cbn [keys map fst] in Hk. injection Hk as <- Hk.
  inversion Hnd as [|? ? Hnotin Hnd']; subst.
  pose proof (Hl k) as Hv. cbn [lookup] in Hv.
  rewrite String.eqb_refl in Hv. injection Hv as <-.
  f_equal. apply IH; [exact Hk | exact Hnd'|].
  intros n. pose proof (Hl n) as Hn. cbn [lookup] in Hn.
  destruct (n =? k)%string eqn:E; [|exact Hn].
  apply String.eqb_eq in E. subst n.
  rewrite (lookup_not_in _ _ Hnotin).
  symmetry. apply lookup_not_in. unfold keys in *. now rewrite <- Hk.
Qed.

Lemma filter_all {A} (f : A -> bool) l :
  (forall a, In a l -> f a = true) -> filter f l = l.
Proof.
  induction l as [|a l IH]; intros H; simpl; [reflexivity|].
  rewrite (H a (or_introl eq_refl)), IH; [reflexivity|].
  intros b Hb. apply H. now right.
Qed.

Lemma first_occurrences_NoDup_id l : NoDup l -> first_occurrences l = l.
Proof.
  induction 1 as [|a l Ha Hl IH]; simpl; [reflexivity|].
  rewrite IH. f_equal. apply filter_all. intros b Hb.
  apply negb_true_iff, String.eqb_neq. intros ->. contradiction.
Qed.

Lemma str_in_ext s l1 l2 :
  (In s l1 <-> In s l2) -> str_in s l1 = str_in s l2.
Proof.
  intros H. destruct (str_in s l1) eqn:E1, (str_in s l2) eqn:E2;
    try reflexivity.
  - apply str_in_In, H, str_in_In in E1. congruence.
  - apply str_in_In, H, str_in_In in E2. congruence.
Qed.

(** X3. Names the table does not have and repeats of a name are of no
    consequence: without [all], the selection for a request is the selection
    for its known names, each taken once, at its first place. *)
Theorem selection_ignores_unknown_and_repeats (requested : list string) :
  str_in "all" requested = false ->
  selected requested
  = selected (first_occurrences (filter known requested))
  /\ keys (selected requested) = first_occurrences (filter known requested).
Proof.
  intros Hall.
  set (req' := first_occurrences (filter known requested)).
  assert (Hknown : forall a, In a req' -> known a = true).
  { intros a Ha. apply first_occurrences_In, filter_In in Ha. tauto. }
  assert (Hall' : str_in "all" req' = false).
  { destruct (str_in "all" req') eqn:E; [|reflexivity].
    apply str_in_In, Hknown in E. discriminate E. }
  assert (Hkeys' : keys (comprehension req') = req').
  { rewrite comprehension_keys, (filter_all _ _ Hknown).
    apply first_occurrences_NoDup_id, first_occurrences_NoDup. }
  unfold selected. rewrite Hall, Hall'.
  split; [|apply comprehension_keys].
  apply dict_ext.
  - now rewrite Hkeys', comprehension_keys.
  - rewrite comprehension_keys. apply first_occurrences_NoDup.
  - intros n. unfold comprehension. rewrite !lookup_comprehension_from.
    replace (str_in n req') with (str_in n requested && known n).
    + now destruct (str_in n requested), (known n).
    + destruct (known n) eqn:Hk.
      * rewrite andb_true_r. apply str_in_ext. unfold req'.
        rewrite first_occurrences_In, filter_In. tauto.
      * rewrite andb_false_r. symmetry.
        destruct (str_in n req') eqn:E; [|reflexivity].
        apply str_in_In, Hknown in E. congruence.
Qed.

Lemma selection_ignores_unknown_and_repeats_witness :
  str_in "all" ["480p"; "4k"; "480p"; "1080p"] = false
  /\ keys (selected ["480p"; "4k"; "480p"; "1080p"]) = ["480p"; "1080p"].
Proof.
  split; [reflexivity|].
  apply (selection_ignores_unknown_and_repeats
           ["480p"; "4k"; "480p"; "1080p"]).
  reflexivity.
Defined.

(** ** More on the command line *)

Lemma classify_unknown pre : forall toks,
  classify pre = Ok toks ->
  existsb unknown_token toks = existsb unknown_option pre.
Proof.
  induction pre as [|s r IH]; intros toks H; simpl in H.
  - now injection H as <-.
  - apply bind_Ok in H. destruct H as [t [Ht H]].
    apply bind_Ok in H. destruct H as [ts [Hts H]].
    injection H as <-. cbn [existsb]. rewrite (IH ts Hts). f_equal.
    unfold unknown_option. destruct (parse_optional s) as [|a' os e|];
      try discriminate Ht; now injection Ht as <-.
Qed.

Lemma unknown_token_option t : unknown_token t = true -> is_option t = true.
Proof. now destruct t. Qed.

Lemma no_option_no_unknown l :
  has_option l = false -> existsb unknown_token l = false.
Proof.
  induction l as [|t l IH]; simpl; [reflexivity|].
  intros H. apply orb_false_iff in H. destruct H as [Ht Hl].
  rewrite (IH Hl), orb_false_r.
  destruct (unknown_token t) eqn:E; [|reflexivity].
  apply unknown_token_option in E. congruence.
Qed.

Lemma consume_positional_extras a st :
  extras st <> [] -> extras (consume_positional a st) <> [].
Proof.
  unfold consume_positional.
  destruct (st_input st); [destruct (st_output st)|]; cbn; auto.
  intros H E. apply app_eq_nil in E. tauto.
Qed.

Lemma consume_positionals_end_extras st rest post :
  extras st <> [] -> extras (consume_positionals_end st rest post) <> [].
Proof.
  intros H. unfold consume_positionals_end.
  destruct (st_input st) as [i0|]; [destruct (st_output st) as [o0|]|];
    destruct rest as [|a [|b rest']]; destruct post as [[|c [|d post']]|];
    cbn; try assumption;
    intros E; apply app_eq_nil in E; tauto.
Qed.

Section ParserMore.

Variable int : string -> option Z.

Lemma consume_optional_help os e following st :
  exists x, consume_optional int (Some a_help) os e following st = Stop x.
Proof.
  cbn [consume_optional]. destruct e as [e|]; [|eauto].
  destruct (_ && _); unfold error; eauto.
Qed.

(** A token that names the help option ends the loop. *)
Lemma parse_loop_help_stops l : forall skip st,
  Forall (fun t => is_option t = false) (firstn skip l) ->
  existsb (token_of a_help) l = true ->
  exists x, parse_loop int l skip st = Stop x.
Proof.
  induction l as [|t rest IH]; intros skip st Hskip Hh; [discriminate Hh|].
  cbn [existsb] in Hh. destruct skip as [|k]; cbn [parse_loop].
  - destruct (has_option (t :: rest)) eqn:Hopt.
    + destruct t as [a|a os e].
      * apply IH; [constructor | exact Hh].
      * destruct a as [[|d|]|];
          try (destruct (consume_optional_help os e rest st) as [x ->];
               cbn [bind]; eauto);
          (destruct (consume_optional int _ os e rest st) as [[st' n]|x]
             eqn:Hc; [|cbn [bind]; eauto]);
          cbn [bind]; apply consume_optional_Ok in Hc;
          destruct Hc as [Hn _]; (apply IH; [exact Hn | exact Hh]).
    + pose proof (no_option_no_token a_help _ Hopt) as Hn.
      cbn [existsb] in Hn. congruence.
  - cbn [firstn] in Hskip. inversion Hskip as [|? ? Ht Hrest]; subst.
    destruct t as [a|a os e]; [|discriminate Ht].
    apply IH; assumption.
Qed.

(** A token written like an option that names none leaves a string that
    nothing claims. *)
Lemma parse_loop_unknown l : forall skip st st' rest,
  Forall (fun t => is_option t = false) (firstn skip l) ->
  extras st <> [] \/ existsb unknown_token l = true ->
  parse_loop int l skip st = Ok (st', rest) ->
  extras st' <> [].
Proof.
  induction l as [|t l IH]; intros skip st st' rest Hskip Hu H;
    cbn [parse_loop] in H.
  - injection H as <- _. destruct Hu as [Hu | Hu]; [exact Hu | discriminate].
  - destruct skip as [|k].
    + destruct (has_option (t :: l)) eqn:Hopt.
      * destruct t as [a|a os e].
        -- eapply (IH 0%nat); [constructor | | exact H].
           destruct Hu as [Hu | Hu];
             [left; now apply consume_positional_extras | right; exact Hu].
        -- apply bind_Ok in H. destruct H as [[st1 n] [Hc H]].
           apply consume_optional_Ok in Hc. destruct Hc as [Hn Hc].
           eapply IH; [exact Hn | | exact H].
           destruct Hc as [[-> ->] | [[d [v [-> Hd]]] | [vs [-> Hr]]]].
           ++ left. cbn. intros E. apply app_eq_nil in E.
              destruct E as [_ E]. discriminate E.
           ++ apply take_store_Ok in Hd.
              destruct Hd as [_ [_ [_ [-> _]]]]. exact Hu.
           ++ apply take_resolutions_Ok in Hr.
              destruct Hr as [_ [_ [_ [-> _]]]]. exact Hu.
      * injection H as <- _. destruct Hu as [Hu | Hu]; [exact Hu|].
        rewrite (no_option_no_unknown _ Hopt) in Hu. discriminate Hu.
    + cbn [firstn] in Hskip. inversion Hskip as [|? ? Ht Hrest]; subst.
      destruct t as [a|a os e]; [|discriminate Ht].
      eapply IH; [exact Hrest | exact Hu | exact H].
Qed.

(** An option the command line does not supply is not touched. *)
Lemma parse_loop_unsupplied a (P : Options -> Prop) :
  (forall d v st st',
     a_store d <> a -> P (st_options st) ->
     take_store int d v st = Ok st' -> P (st_options st')) ->
  (forall vs st st',
     a_resolutions <> a -> P (st_options st) ->
     take_resolutions vs st = Ok st' -> P (st_options st')) ->
  forall l skip st st' rest,
    existsb (token_of a) l = false ->
    P (st_options st) ->
    parse_loop int l skip st = Ok (st', rest) ->
    P (st_options st').
Proof.
  intros Hstore Hres.
  induction l as [|t l IH]; intros skip st st' rest Hno HP H;
    cbn [parse_loop] in H.
  - now injection H as <- _.
  - cbn [existsb] in Hno. apply orb_false_iff in Hno.
    destruct Hno as [Ht Hl].
    destruct skip as [|k]; [|eapply IH; eauto].
    destruct (has_option (t :: l)); [|now injection H as <- _].
    destruct t as [s|a' os e].
    + eapply IH; [exact Hl | | exact H].
      now rewrite (proj2 (consume_positional_seen s st)).
    + apply bind_Ok in H. destruct H as [[st1 n] [Hc H]].
      eapply IH; [exact Hl | | exact H].
      apply consume_optional_Ok in Hc.
      destruct Hc as [_ [[_ ->] | [[d [v [-> Hd]]] | [vs [-> Hr]]]]].
      * exact HP.
      * eapply Hstore; [|exact HP | exact Hd].
        intros <-. cbn [token_of] in Ht.
        now rewrite action_eqb_refl in Ht.
      * eapply Hres; [|exact HP | exact Hr].
        intros <-. cbn [token_of] in Ht.
        now rewrite action_eqb_refl in Ht.
Qed.

Lemma parse_args_unsupplied a (P : Options -> Prop) :
  (forall d v st st',
     a_store d <> a -> P (st_options st) ->
     take_store int d v st = Ok st' -> P (st_options st')) ->
  (forall vs st st',
     a_resolutions <> a -> P (st_options st) ->
     take_resolutions vs st = Ok st' -> P (st_options st')) ->
  P defaults ->
  forall argv args,
    supplies a argv = false ->
    parse_args int argv = Ok args -> P (options args).
Proof.
  intros Hstore Hres Hinit argv args Hno H.
  unfold supplies in Hno. unfold parse_args in H.
  destruct (split_dashes argv) as [pre post]. cbn [fst] in Hno.
  apply bind_Ok in H. destruct H as [toks [Hc H]].
  apply bind_Ok in H. destruct H as [[st rest] [Hloop H]].
  rewrite <- (classify_tokens _ _ a Hc) in Hno.
  pose proof (parse_loop_unsupplied a P Hstore Hres _ _ initial _ _
                Hno Hinit Hloop) as HP.
  rewrite <- (proj1 (consume_positionals_end_options st rest post)) in HP.
  destruct (st_input _) as [i|]; [|discriminate H].
  destruct (st_output _) as [o|]; [|discriminate H].
  destruct (extras _); [|discriminate H].
  now injection H as <-.
Qed.

End ParserMore.

Section ParserNonempty.

Variable int : string -> option Z.

(** On an accepted command line at most the four profiles of the table
    are selected, and at least one unless no name is requested. *)
Lemma parsed_selection_size argv args :
  parse_args int argv = Ok args ->
  (resolutions_arg args <> [] ->
   (1 <= List.length (selected (resolutions_arg args)))%nat)
  /\ (List.length (selected (resolutions_arg args)) <= 4)%nat.
Proof.
  intros H.
  pose proof (parsed_resolutions_choices int _ _ H) as Hc.
  split.
  - intros Hne. unfold selected.
    destruct (str_in "all" (resolutions_arg args)) eqn:Hall; [cbn; lia|].
    destruct (resolutions_arg args) as [|r l]; [contradiction|].
    assert (Hk : known r = true).
    { inversion Hc as [|? ? Hr _]; subst.
      rewrite str_in_cons in Hall. apply orb_false_iff in Hall.
      destruct Hall as [Hne' _]. apply String.eqb_neq in Hne'.
      apply str_in_In. rewrite resolutions_keys. cbn in Hr. cbn.
      intuition congruence. }
    assert (Hlen : List.length (keys (comprehension (r :: l))) <> 0%nat).
    { rewrite comprehension_keys. cbn [filter]. rewrite Hk. discriminate. }
    unfold keys in Hlen. rewrite length_map in Hlen. lia.
  - replace (List.length (selected (resolutions_arg args)))
      with (List.length (keys (selected (resolutions_arg args))))
      by apply length_map.
    change 4%nat with (List.length (keys resolutions)).
    apply NoDup_incl_length; [apply selected_NoDup|].
    intros k Hk. unfold selected in Hk.
    destruct (str_in "all" (resolutions_arg args)); [exact Hk|].
    apply in_map_iff in Hk. destruct Hk as [[k' v] [<- Hin]].
    apply comprehension_entries, lookup_Some_known in Hin.
    now apply str_in_In.
Qed.

End ParserNonempty.

(** X4. A command line that asks for help encodes nothing: no namespace
    comes out of the parser, no child is started, and the exit status is 0
    (the help) or 2 (a usage error met first). *)
Theorem help_never_encodes
    (int : string -> option Z) (script_dir : string)
    (subprocess_run : nat -> list string -> completed)
    (argv : list string) :
  supplies a_help argv = true ->
  (exists e, parse_args int argv = Stop e)
  /\ spawned (fst (main int script_dir subprocess_run argv)) = []
  /\ (snd (main int script_dir subprocess_run argv) = 0%Z
      \/ snd (main int script_dir subprocess_run argv) = 2%Z).
Proof.
  intros Hh.
  assert (He : exists e, parse_args int argv = Stop e).
  { unfold supplies in Hh. unfold parse_args.
    destruct (split_dashes argv) as [pre post]. cbn [fst] in Hh.
    destruct (classify pre) as [toks|e] eqn:Hc; [|cbn [bind]; eauto].
    cbn [bind]. rewrite <- (classify_tokens _ _ a_help Hc) in Hh.
    destruct (parse_loop_help_stops int toks 0%nat initial) as [x Hx];
      [constructor | exact Hh |].
    rewrite Hx. cbn [bind]. eauto. }
  split; [exact He|]. destruct He as [e He]. unfold main. rewrite He.
  destruct e; cbn; auto.
Qed.

Lemma help_never_encodes_witness :
  supplies a_help ["in.mp4"; "out"; "--resolutions"; "720p"; "--he"] = true
  /\ main decimal sample_dir all_succeed
          ["in.mp4"; "out"; "--resolutions"; "720p"; "--he"]
     = ([help_message], 0%Z)
  /\ spawned (fst (main decimal sample_dir all_succeed
                        ["in.mp4"; "out"; "--resolutions"; "720p"; "--he"]))
     = [].
Proof.
  split; [reflexivity|]. split; [reflexivity|].
  apply (help_never_encodes decimal sample_dir all_succeed
           ["in.mp4"; "out"; "--resolutions"; "720p"; "--he"]).
  reflexivity.
Defined.

(** X5. A token before any [--] that is written like an option and names
    none of the parser makes the command line unacceptable, wherever it
    stands: no namespace, no child. *)
Theorem unknown_option_rejected
    (int : string -> option Z) (script_dir : string)
    (subprocess_run : nat -> list string -> completed)
    (argv : list string) :
  existsb unknown_option (fst (split_dashes argv)) = true ->
  (exists e, parse_args int argv = Stop e)
  /\ spawned (fst (main int script_dir subprocess_run argv)) = [].
Proof.
  intros Hu.
  assert (He : exists e, parse_args int argv = Stop e).
  { unfold parse_args.
    destruct (split_dashes argv) as [pre post]. cbn [fst] in Hu.
    destruct (classify pre) as [toks|e] eqn:Hc; [|cbn [bind]; eauto].
    cbn [bind]. rewrite <- (classify_unknown _ _ Hc) in Hu.
    destruct (parse_loop int toks 0%nat initial) as [[st rest]|x] eqn:Hl;
      [|cbn [bind]; eauto].
    cbn [bind].
    assert (Hex : extras (consume_positionals_end st rest post) <> []).
    { apply consume_positionals_end_extras.
      eapply (parse_loop_unknown int toks 0%nat);
        [constructor | right; exact Hu | exact Hl]. }
    destruct (st_input _); [destruct (st_output _)|]; unfold error; eauto.
    destruct (extras _); [contradiction | eauto]. }
  split; [exact He|]. destruct He as [e He]. unfold main. rewrite He.
  now destruct e.
Qed.

Lemma unknown_option_rejected_witness :
  existsb unknown_option
    (fst (split_dashes ["in.mp4"; "out"; "--crf"; "23"])) = true
  /\ spawned (fst (main decimal sample_dir all_succeed
                        ["in.mp4"; "out"; "--crf"; "23"])) = [].
Proof.
  split; [reflexivity|].
  apply (unknown_option_rejected decimal sample_dir all_succeed
           ["in.mp4"; "out"; "--crf"; "23"]).
  reflexivity.
Defined.

(** X6. A command line of fewer than two strings is never accepted: both
    positionals are required.  No child is started. *)
Theorem too_few_arguments
    (int : string -> option Z) (script_dir : string)
    (subprocess_run : nat -> list string -> completed)
    (argv : list string) :
  (List.length argv < 2)%nat ->
  (exists e, parse_args int argv = Stop e)
  /\ spawned (fst (main int script_dir subprocess_run argv)) = [].
Proof.
  intros Hlen.
  assert (He : exists e, parse_args int argv = Stop e).
  { destruct argv as [|s [|t argv]]; [| |cbn in Hlen; lia].
    - eexists. reflexivity.
    - unfold parse_args. cbn [split_dashes].
      destruct (s =? "--")%string; [eexists; reflexivity|].
      cbn [classify].
      destruct (parse_optional s) as [|a os e|]; cbn [bind];
        [eexists; reflexivity | | eexists; reflexivity].
      destruct a as [[|d|]|]; [| destruct d | |]; destruct e as [e|];
        cbn [parse_loop has_option existsb is_option orb consume_optional
             take_store take_resolutions get_int bind leading_args];
        unfold error, get_int, take_resolutions;
        repeat match goal with
               | |- context [if ?b then _ else _] => destruct b
               | |- context [match int ?v with _ => _ end] =>
                   destruct (int v)
               | |- context [find ?f ?l] => destruct (find f l)
               end;
        cbn; eauto. }
  split; [exact He|]. destruct He as [e He]. unfold main. rewrite He.
  now destruct e.
Qed.

Lemma too_few_arguments_witness :
  (List.length ["in.mp4"] < 2)%nat
  /\ main decimal sample_dir all_succeed ["in.mp4"]
     = ([usage_message (required_arguments ["output"])], 2%Z)
  /\ spawned (fst (main decimal sample_dir all_succeed ["in.mp4"])) = [].
Proof.
  split; [cbn; lia|]. split; [reflexivity|].
  apply (too_few_arguments decimal sample_dir all_succeed ["in.mp4"]).
  cbn. lia.
Defined.

Lemma no_dash_positional s :
  starts_with_dash s = false ->
  (s =? "--")%string = false /\ parse_optional s = Positional.
Proof.
  destruct s as [|c s]; [now split|]. cbn [starts_with_dash]. intros H.
  split.
  - apply String.eqb_neq. intros [= -> _]. discriminate H.
  - cbn [parse_optional]. now rewrite H.
Qed.

(** X7. Given only an input and an output base that do not start with a
    dash, the script runs with the defaults: text [HALASHOW.COM] at 20,40
    in size 30 and colour [white@0.5], pixel format [yuv420p], language
    [ar], no subtitles, every profile.  If each child exits with 0 it
    writes the four files of the base, 1080p first, each with the filter
    chain of its resolution and that text, and ends with 0. *)
Theorem plain_command_line
    (int : string -> option Z) (script_dir : string)
    (subprocess_run : nat -> list string -> completed) (i o : string) :
  starts_with_dash i = false ->
  starts_with_dash o = false ->
  (forall n cmd, subprocess_run n cmd = returncode 0) ->
  let args :=
    {| input := i; output := Str o;
       options :=
         {| x := Int 20; y := Int 40; fontsize := Int 30;
            fontcolor := Str "white@0.5"; pix_fmt := Str "yuv420p";
            soft := None; burn := None;
            lang := Str "ar"; watermark := Str "HALASHOW.COM";
            resolutions_arg := ["all"] |} |} in
  let overlay :=
    (",drawtext=fontfile='" ++ font_path script_dir
       ++ "':text='HALASHOW.COM':x=20:y=40:fontsize=30:fontcolor=white@0.5")
    %string in
  parse_args int [i; o] = Ok args
  /\ main int script_dir subprocess_run [i; o]
     = (flat_map (profile_events script_dir args) resolutions
          ++ [stdout "Encoding complete!"], 0%Z)
  /\ output_files (fst (main int script_dir subprocess_run [i; o]))
     = [o ++ "_1080p.mp4"; o ++ "_720p.mp4";
        o ++ "_480p.mp4"; o ++ "_360p.mp4"]%string
  /\ map (values "-vf")
         (spawned (fst (main int script_dir subprocess_run [i; o])))
     = [["scale=1920x1080" ++ overlay]; ["scale=1280x720" ++ overlay];
        ["scale=854x480" ++ overlay]; ["scale=640x360" ++ overlay]]%string
  /\ map (values "-i")
         (spawned (fst (main int script_dir subprocess_run [i; o])))
     = [[i]; [i]; [i]; [i]]
  /\ map (values "-pix_fmt")
         (spawned (fst (main int script_dir subprocess_run [i; o])))
     = [["yuv420p"]; ["yuv420p"]; ["yuv420p"]; ["yuv420p"]]
  /\ map (values "-b:v")
         (spawned (fst (main int script_dir subprocess_run [i; o])))
     = [["3000k"]; ["2000k"]; ["1000k"]; ["700k"]].
Proof.
  intros Hi Ho Hrun args overlay.
  destruct (no_dash_positional _ Hi) as [Hi1 Hi2].
  destruct (no_dash_positional _ Ho) as [Ho1 Ho2].
  assert (Hparse : parse_args int [i; o] = Ok args).
  { unfold parse_args. cbn [split_dashes]. rewrite Hi1, Ho1.
    cbn [classify]. rewrite Hi2, Ho2. reflexivity. }
  assert (Hmain : main int script_dir subprocess_run [i; o]
                  = (flat_map (profile_events script_dir args)
                       resolutions ++ [stdout "Encoding complete!"], 0%Z)).
  { rewrite (main_parsed _ _ _ _ _ Hparse).
    change (selected (resolutions_arg args)) with resolutions.
    rewrite (for_each_success script_dir subprocess_run args "yuv420p"
               eq_refl resolutions []); [reflexivity|].
    intros j item _. apply Hrun. }
  split; [exact Hparse|]. split; [exact Hmain|].
  rewrite Hmain. unfold output_files. cbn [fst].
  rewrite spawned_app, spawned_profile_events. cbn [spawned].
  rewrite app_nil_r. cbn [map resolutions].
  unfold profile_cmd. rewrite !ffmpeg_cmd_last.
  rewrite !ffmpeg_cmd_no_soft by reflexivity.
  repeat split; reflexivity.
Qed.

Lemma plain_command_line_witness :
  starts_with_dash "in.mp4" = false
  /\ starts_with_dash "out" = false
  /\ output_files (fst (main decimal sample_dir all_succeed ["in.mp4"; "out"]))
     = ["out_1080p.mp4"; "out_720p.mp4"; "out_480p.mp4"; "out_360p.mp4"]
  /\ map (values "-vf")
         (spawned (fst (main decimal sample_dir all_succeed
                             ["in.mp4"; "out"])))
     = [["scale=1920x1080,drawtext=fontfile='/opt/encode/NeometricAlt-HeavyItalic.ttf':text='HALASHOW.COM':x=20:y=40:fontsize=30:fontcolor=white@0.5"];
        ["scale=1280x720,drawtext=fontfile='/opt/encode/NeometricAlt-HeavyItalic.ttf':text='HALASHOW.COM':x=20:y=40:fontsize=30:fontcolor=white@0.5"];
        ["scale=854x480,drawtext=fontfile='/opt/encode/NeometricAlt-HeavyItalic.ttf':text='HALASHOW.COM':x=20:y=40:fontsize=30:fontcolor=white@0.5"];
        ["scale=640x360,drawtext=fontfile='/opt/encode/NeometricAlt-HeavyItalic.ttf':text='HALASHOW.COM':x=20:y=40:fontsize=30:fontcolor=white@0.5"]].
Proof.
  split; [reflexivity|]. split; [reflexivity|].
  pose proof (plain_command_line decimal sample_dir all_succeed
                "in.mp4" "out" eq_refl eq_refl (fun _ _ => eq_refl)) as H.
  split; [exact (proj1 (proj2 (proj2 H)))|].
  exact (proj1 (proj2 (proj2 (proj2 H)))).
Defined.

(** X8. Without [--soft] and [--burn] on the command line there is no
    subtitle anywhere: both values are [None], and the command of every
    profile has the one input, the two stream maps and a filter chain of
    the scale stage and the text overlay. *)
Theorem no_subtitle_option_no_subtitle
    (int : string -> option Z) (script_dir : string)
    (argv : list string) (args : Namespace) (item : string * Profile) :
  parse_args int argv = Ok args ->
  supplies (a_store d_soft) argv = false ->
  supplies (a_store d_burn) argv = false ->
  soft args = None /\ burn args = None
  /\ values "-i" (profile_cmd script_dir args item) = [input args]
  /\ values "-map" (profile_cmd script_dir args item) = ["0:v"; "0:a"]
  /\ values "-vf" (profile_cmd script_dir args item)
     = [(scale_stage (res (snd item)) ++ ","
         ++ drawtext_stage (font_path script_dir) (watermark args)
              (x args) (y args) (fontsize args) (fontcolor args))%string].
Proof.
  intros Hparse Hs Hb.
  assert (Hsoft : soft args = None).
  { apply (parse_args_unsupplied int (a_store d_soft)
             (fun o => soft o = None)) with (argv := argv); auto.
    - intros d v st st' Hd HP Ht. apply take_store_Ok in Ht.
      destruct Ht as [_ [_ [_ [_ [_ [-> _]]]]]]; [exact HP|].
      intros ->. now apply Hd.
    - intros vs st st' _ HP Ht. apply take_resolutions_Ok in Ht.
      destruct Ht as [_ [_ [_ [_ [_ [-> _]]]]]]. exact HP. }
  assert (Hburn : burn args = None).
  { apply (parse_args_unsupplied int (a_store d_burn)
             (fun o => burn o = None)) with (argv := argv); auto.
    - intros d v st st' Hd HP Ht. apply take_store_Ok in Ht.
      destruct Ht as [_ [_ [_ [_ [_ [_ [-> _]]]]]]]; [exact HP|].
      intros ->. now apply Hd.
    - intros vs st st' _ HP Ht. apply take_resolutions_Ok in Ht.
      destruct Ht as [_ [_ [_ [_ [_ [_ [-> _]]]]]]]. exact HP. }
  split; [exact Hsoft|]. split; [exact Hburn|].
  destruct item as [name opts]. unfold profile_cmd.
  rewrite ffmpeg_cmd_no_soft by now rewrite Hsoft.
  rewrite Hburn. repeat split; reflexivity.
Qed.

Lemma no_subtitle_option_no_subtitle_witness :
  parse_args decimal ["in.mp4"; "out"; "--lang"; "fr"]
  = Ok {| input := "in.mp4"; output := Str "out";
          options := set_lang "fr" defaults |}
  /\ supplies (a_store d_soft) ["in.mp4"; "out"; "--lang"; "fr"] = false
  /\ supplies (a_store d_burn) ["in.mp4"; "out"; "--lang"; "fr"] = false
  /\ values "-i"
       (profile_cmd sample_dir
          {| input := "in.mp4"; output := Str "out";
             options := set_lang "fr" defaults |} profile_720p)
     = ["in.mp4"].
Proof.
  split; [reflexivity|]. split; [reflexivity|]. split; [reflexivity|].
  apply (no_subtitle_option_no_subtitle decimal sample_dir
           ["in.mp4"; "out"; "--lang"; "fr"]); reflexivity.
Defined.

(** X9. Without [--resolutions] on the command line the request is
    [all]: the whole table is selected. *)
Theorem no_resolutions_option_selects_all
    (int : string -> option Z) (argv : list string) (args : Namespace) :
  parse_args int argv = Ok args ->
  supplies a_resolutions argv = false ->
  resolutions_arg args = ["all"]
  /\ selected (resolutions_arg args) = resolutions.
Proof.
  intros Hparse Hr.
  assert (Hall : resolutions_arg args = ["all"]).
  { apply (parse_args_unsupplied int a_resolutions
             (fun o => resolutions_arg o = ["all"])) with (argv := argv);
      auto.
    - intros d v st st' _ HP Ht. apply take_store_Ok in Ht.
      destruct Ht as [_ [_ [_ [_ [-> _]]]]]. exact HP.
    - intros vs st st' Hd. now contradiction Hd. }
  split; [exact Hall|]. now rewrite Hall.
Qed.

Lemma no_resolutions_option_selects_all_witness :
  parse_args decimal ["in.mp4"; "out"; "--x=5"]
  = Ok {| input := "in.mp4"; output := Str "out";
          options := set_x 5 defaults |}
  /\ supplies a_resolutions ["in.mp4"; "out"; "--x=5"] = false
  /\ selected (resolutions_arg
                 {| input := "in.mp4"; output := Str "out";
                    options := set_x 5 defaults |}) = resolutions.
Proof.
  split; [reflexivity|]. split; [reflexivity|].
  apply (no_resolutions_option_selects_all decimal
           ["in.mp4"; "out"; "--x=5"]); reflexivity.
Defined.

(** X10. No command of the script has both a soft subtitle and a burnt-in
    one: on an accepted command line one of the two values is [None], so
    the command of a profile has a single input and no subtitle codec, or
    a filter chain without a subtitle stage. *)
Theorem never_both_subtitles
    (int : string -> option Z) (script_dir : string)
    (argv : list string) (args : Namespace) (item : string * Profile) :
  parse_args int argv = Ok args ->
  (soft args = None \/ burn args = None)
  /\ ((values "-i" (profile_cmd script_dir args item) = [input args]
       /\ values "-c:s" (profile_cmd script_dir args item) = [])
      \/ values "-vf" (profile_cmd script_dir args item)
         = [(scale_stage (res (snd item)) ++ ","
             ++ drawtext_stage (font_path script_dir) (watermark args)
                  (x args) (y args) (fontsize args) (fontcolor args))%string]).
Proof.
  intros Hparse.
  pose proof (parsed_exclusive int _ _ Hparse) as Hex.
  split; [exact Hex|].
  destruct item as [name opts]. unfold profile_cmd.
  destruct Hex as [Hs | Hb].
  - left. rewrite ffmpeg_cmd_no_soft by now rewrite Hs. now split.
  - right. rewrite Hb.
    destruct (truthy (soft args)) eqn:Hs.
    + now rewrite (ffmpeg_cmd_soft _ _ _ _ _ _ _ _ _ _ _ _ _ _ _ _ _ _ Hs).
    + now rewrite (ffmpeg_cmd_no_soft _ _ _ _ _ _ _ _ _ _ _ _ _ _ _ _ _ _ Hs).
Qed.

Lemma never_both_subtitles_witness :
  parse_args decimal sample_argv = Ok sample_args
  /\ (soft sample_args = None \/ burn sample_args = None).
Proof.
  split; [reflexivity|].
  apply (never_both_subtitles decimal sample_dir sample_argv sample_args
           profile_720p).
  reflexivity.
Defined.

(** ** More on the run *)

Lemma string_length_append a b :
  String.length (a ++ b) = (String.length a + String.length b)%nat.
Proof. induction a as [|c a IH]; simpl; [reflexivity | now rewrite IH]. Qed.

Lemma append_inj_l p a b : (p ++ a = p ++ b)%string -> a = b.
Proof. induction p as [|c p IH]; simpl; [auto | intros [= H]; auto]. Qed.

Lemma append_inj_r s : forall a b, (a ++ s = b ++ s)%string -> a = b.
Proof.
  induction a as [|c a IH]; intros [|c' b] H; simpl in H.
  - reflexivity.
  - apply (f_equal String.length) in H. simpl in H.
    rewrite string_length_append in H. lia.
  - apply (f_equal String.length) in H. simpl in H.
    rewrite string_length_append in H. lia.
  - injection H as -> H. f_equal. now apply IH.
Qed.

Lemma out_file_inj args n n' : out_file args n = out_file args n' -> n = n'.
Proof.
  unfold out_file. intros H.
  apply append_inj_l in H. apply (append_inj_l "_") in H.
  now apply append_inj_r in H.
Qed.

Lemma NoDup_map_inj {A B} (f : A -> B) l :
  (forall a b, f a = f b -> a = b) -> NoDup l -> NoDup (map f l).
Proof.
  intros Hf. induction 1 as [|a l Ha Hl IH]; simpl; constructor; auto.
  intros Hin. apply in_map_iff in Hin. destruct Hin as [b [Hb Hin]].
  apply Hf in Hb. now subst.
Qed.

Lemma NoDup_firstn {A} k (l : list A) : NoDup l -> NoDup (firstn k l).
Proof.
  intros H. rewrite <- (firstn_skipn k l) in H.
  now apply NoDup_app_remove_r in H.
Qed.

Section RunMore.

Variable int : string -> option Z.
Variable script_dir : string.
Variable subprocess_run : nat -> list string -> completed.

Local Abbreviation cmd_of := (profile_cmd script_dir).
Local Abbreviation events_of := (profile_events script_dir).
Local Abbreviation script := (main int script_dir subprocess_run).

(** A child that cannot be started ends the loop with a traceback. *)
Lemma for_each_raised (args : Namespace) pix
    (Hpix : pix_fmt args = Str pix) i :
  forall l tr item,
  nth_error l i = Some item ->
  (forall j item', (j < i)%nat -> nth_error l j = Some item' ->
     subprocess_run (List.length (spawned tr) + j) (cmd_of args item')
     = returncode 0) ->
  subprocess_run (List.length (spawned tr) + i) (cmd_of args item) = raised ->
  for_each l (encode_profile script_dir subprocess_run args) tr
  = (tr ++ flat_map (events_of args) (firstn (S i) l) ++ [traceback],
     Exit 1%Z).
Proof.
  induction i as [|i IH]; intros l tr item Hnth Hbefore Hi;
    destruct l as [|a l]; try discriminate Hnth.
  - injection Hnth as ->. cbn [for_each]. unfold seq.
    rewrite (encode_profile_run _ _ _ pix Hpix).
    rewrite Nat.add_0_r in Hi. rewrite Hi.
    cbn [firstn flat_map]. now rewrite app_nil_r.
  - cbn [for_each]. unfold seq. rewrite (encode_profile_run _ _ _ pix Hpix).
    pose proof (Hbefore 0%nat a (Nat.lt_0_succ i) eq_refl) as H0.
    rewrite Nat.add_0_r in H0. rewrite H0. cbn [Z.eqb].
    assert (Hlen : List.length (spawned (tr ++ events_of args a))
                   = S (List.length (spawned tr))).
    { rewrite spawned_app, length_app. cbn. lia. }
    rewrite (IH l (tr ++ events_of args a) item Hnth).
    + change (firstn (S (S i)) (a :: l)) with (a :: firstn (S i) l).
      cbn [flat_map]. now rewrite <- !app_assoc.
    + intros j item' Hj Hnj. rewrite Hlen.
      replace (S (List.length (spawned tr)) + j)%nat
        with (List.length (spawned tr) + S j)%nat by lia.
      apply Hbefore; [lia | exact Hnj].
    + rewrite Hlen.
      replace (S (List.length (spawned tr)) + i)%nat
        with (List.length (spawned tr) + S i)%nat by lia.
      exact Hi.
Qed.

(** The loop either runs through, or stops after the [k]-th profile with
    the failure message or with a traceback. *)
Lemma for_each_shape (args : Namespace) pix
    (Hpix : pix_fmt args = Str pix) l :
  forall tr,
  for_each l (encode_profile script_dir subprocess_run args) tr
  = (tr ++ flat_map (events_of args) l, Return tt)
  \/ exists k item e,
       nth_error l k = Some item
       /\ (e = stderr "Error: Encoding failed!" \/ e = traceback)
       /\ for_each l (encode_profile script_dir subprocess_run args) tr
          = (tr ++ flat_map (events_of args) (firstn (S k) l) ++ [e],
             Exit 1%Z).
Proof.
  induction l as [|a l IH]; intros tr.
  - left. cbn. now rewrite app_nil_r.
  - cbn [for_each]. unfold seq. rewrite (encode_profile_run _ _ _ pix Hpix).
    destruct (subprocess_run _ _) as [c|]; [destruct (c =? 0)%Z|].
    + destruct (IH (tr ++ events_of args a)) as [H | [k [item [e [Hn [He H]]]]]].
      * left. rewrite H. cbn [flat_map]. now rewrite <- app_assoc.
      * right. exists (S k), item, e. split; [exact Hn|]. split; [exact He|].
        rewrite H. change (firstn (S (S k)) (a :: l)) with (a :: firstn (S k) l).
        cbn [flat_map]. now rewrite <- !app_assoc.
    + right. exists 0%nat, a, (stderr "Error: Encoding failed!").
      split; [reflexivity|]. split; [now left|].
      cbn [firstn flat_map]. now rewrite app_nil_r.
    + right. exists 0%nat, a, traceback.
      split; [reflexivity|]. split; [now right|].
      cbn [firstn flat_map]. now rewrite app_nil_r.
Qed.

Lemma length_firstn_S {A} (l : list A) k x :
  nth_error l k = Some x -> List.length (firstn (S k) l) = S k.
Proof.
  intros H. rewrite length_firstn. apply Nat.min_l, Nat.le_succ_l.
  apply nth_error_Some. now rewrite H.
Qed.

(** X11. When the child of a profile cannot be started at all (the call
    raises), the script ends with a traceback and exit status 1, without
    the message [Error: Encoding failed!] and without starting the child
    of any later profile. *)
Theorem start_failure_stops_run argv args i cmd :
  parse_args int argv = Ok args ->
  nth_error (spawned (fst (script argv))) i = Some cmd ->
  subprocess_run i cmd = raised ->
  script argv
  = (flat_map (events_of args)
       (firstn (S i) (selected (resolutions_arg args))) ++ [traceback], 1%Z)
  /\ List.length (spawned (fst (script argv))) = S i
  /\ ~ In (stderr "Error: Encoding failed!") (fst (script argv)).
Proof.
  intros Hparse Hcmd Hi.
  destruct (started_pix_fmt _ _ _ _ _ _ _ Hparse Hcmd) as [pix Hpix].
  rewrite (script_spawned _ _ _ _ _ Hparse) in Hcmd.
  destruct (for_each_reached script_dir subprocess_run args pix Hpix
              _ [] i cmd Hcmd)
    as [[item [Hnth ->]] Hbefore].
  cbn [spawned List.length Nat.add] in Hbefore.
  rewrite (main_parsed _ _ _ _ _ Hparse).
  rewrite (for_each_raised args pix Hpix i _ [] item Hnth Hbefore Hi).
  cbn [app fst]. split; [reflexivity|]. split.
  - rewrite spawned_app, spawned_profile_events. cbn [spawned].
    rewrite app_nil_r, length_map. exact (length_firstn_S _ _ _ Hnth).
  - intros Hin. apply in_app_or in Hin. destruct Hin as [Hin | Hin].
    + apply in_flat_map in Hin. destruct Hin as [it [_ Hin]].
      cbn in Hin. intuition discriminate.
    + cbn in Hin. intuition discriminate.
Qed.

(** X12. Every run has one of six shapes: the help and status 0; a usage
    error and status 2; or, the command line accepted, the announcements
    and the call of [subprocess.run] for each selected profile in turn,
    ending with [Encoding complete!] and status 0; or the same cut after
    some profile by the failure message or by a traceback, with status 1;
    or, when the pixel format is no string and a profile is selected, the
    announcement of the first profile and a traceback, with status 1. *)
Theorem run_shapes argv :
  (parse_args int argv = Stop print_help
   /\ script argv = ([help_message], 0%Z))
  \/ (exists u, parse_args int argv = Stop (usage_error u)
                /\ script argv = ([usage_message u], 2%Z))
  \/ (exists args,
        parse_args int argv = Ok args
        /\ (script argv
            = (flat_map (events_of args) (selected (resolutions_arg args))
                 ++ [stdout "Encoding complete!"], 0%Z)
            \/ (exists k item e pix,
                  nth_error (selected (resolutions_arg args)) k = Some item
                  /\ pix_fmt args = Str pix
                  /\ (e = stderr "Error: Encoding failed!" \/ e = traceback)
                  /\ script argv
                     = (flat_map (events_of args)
                          (firstn (S k) (selected (resolutions_arg args)))
                          ++ [e], 1%Z))
            \/ (exists name opts rest,
                  selected (resolutions_arg args) = (name, opts) :: rest
                  /\ pix_fmt args = EmptyList
                  /\ script argv
                     = ([stdout ("Processing: " ++ input args ++ " -> "
                                 ++ format_value (output args) ++ "_"
                                 ++ name ++ ".mp4");
                         traceback], 1%Z)))).
Proof.
  destruct (parse_args int argv) as [args|[|u]] eqn:Hparse.
  - right. right. exists args. split; [reflexivity|].
    rewrite (main_parsed _ _ _ _ _ Hparse).
    destruct (pix_fmt args) as [pix|] eqn:Hpix.
    + destruct (for_each_shape args pix Hpix
                  (selected (resolutions_arg args)) [])
        as [H | [k [item [e [Hn [He H]]]]]]; rewrite H.
      * left. reflexivity.
      * right. left. exists k, item, e, pix. auto.
    + rewrite (for_each_no_pix_fmt _ _ _ _ _ Hpix).
      destruct (selected (resolutions_arg args)) as [|[name opts] rest].
      * left. reflexivity.
      * right. right. exists name, opts, rest. auto.
  - left. split; [reflexivity|]. unfold main. now rewrite Hparse.
  - right. left. exists u. split; [reflexivity|].
    unfold main. now rewrite Hparse.
Qed.

(** X13. An accepted command line calls [subprocess.run] at most once for
    each selected profile, of which there are at most four.  It calls it
    at least once when a name is requested and the pixel format is a
    string, and not at all otherwise, that is with [--resolutions=--] or
    [--pix_fmt=--]. *)
Theorem children_count argv args :
  parse_args int argv = Ok args ->
  (List.length (spawned (fst (script argv)))
   <= List.length (selected (resolutions_arg args)) <= 4)%nat
  /\ match resolutions_arg args, pix_fmt args with
     | _ :: _, Str _ =>
         (1 <= List.length (spawned (fst (script argv))))%nat
     | _, _ => spawned (fst (script argv)) = []
     end.
Proof.
  intros Hparse.
  destruct (parsed_selection_size int _ _ Hparse) as [Hlo Hhi].
  destruct (pix_fmt args) as [pix|] eqn:Hpix.
  - assert (Hn : (List.length (spawned (fst (script argv)))
                  <= List.length (selected (resolutions_arg args)))%nat
                 /\ (selected (resolutions_arg args) <> [] ->
                     1 <= List.length (spawned (fst (script argv))))%nat).
    { rewrite (main_parsed _ _ _ _ _ Hparse).
      destruct (for_each_shape args pix Hpix
                  (selected (resolutions_arg args)) [])
        as [H | [k [item [e [Hn [He H]]]]]]; rewrite H; cbn [app fst].
      - rewrite spawned_app, spawned_profile_events. cbn [spawned].
        rewrite app_nil_r, length_map. split; [lia|].
        destruct (selected (resolutions_arg args)); [congruence | cbn; lia].
      - assert (Hsp : spawned
                        (flat_map (events_of args)
                           (firstn (S k) (selected (resolutions_arg args)))
                           ++ [e])
                      = map (cmd_of args)
                          (firstn (S k) (selected (resolutions_arg args)))).
        { rewrite spawned_app, spawned_profile_events.
          destruct He as [-> | ->]; cbn [spawned]; apply app_nil_r. }
        rewrite Hsp, length_map, (length_firstn_S _ _ _ Hn).
        assert (k < List.length (selected (resolutions_arg args)))%nat
          by (apply nth_error_Some; now rewrite Hn).
        split; lia. }
    destruct Hn as [Hle Hge]. split; [lia|].
    destruct (resolutions_arg args) as [|r l] eqn:Hr.
    + cbn [selected str_in existsb comprehension fold_left List.length] in Hle.
      now destruct (spawned (fst (script argv))); [|cbn in Hle; lia].
    + apply Hge. intros E. rewrite E in Hlo. cbn in Hlo.
      assert (r :: l <> []) by discriminate. specialize (Hlo H). lia.
  - rewrite (spawned_no_pix_fmt _ _ _ _ _ Hparse Hpix).
    split; [cbn; lia|]. now destruct (resolutions_arg args).
Qed.

(** X14. The children of one run write different files: the output files
    named by the commands the script starts are pairwise distinct. *)
Theorem output_files_distinct argv args :
  parse_args int argv = Ok args ->
  NoDup (output_files (fst (script argv))).
Proof.
  intros Hparse. unfold output_files.
  destruct (pix_fmt args) as [pix|] eqn:Hpix;
    [|rewrite (spawned_no_pix_fmt _ _ _ _ _ Hparse Hpix); constructor].
  rewrite (script_spawned _ _ _ _ _ Hparse).
  destruct (for_each_spawned script_dir subprocess_run args pix Hpix
              (selected (resolutions_arg args)) []) as [k ->].
  cbn [spawned app]. rewrite map_map.
  assert (Hmap : map (fun item => last (cmd_of args item) "")
                     (firstn k (selected (resolutions_arg args)))
                 = map (out_file args)
                       (keys (firstn k (selected (resolutions_arg args))))).
  { unfold keys. rewrite map_map. apply map_ext. intros [name opts].
    unfold profile_cmd. apply ffmpeg_cmd_last. }
  rewrite Hmap. apply NoDup_map_inj; [apply out_file_inj|].
  unfold keys. rewrite <- firstn_map. apply NoDup_firstn.
  apply selected_NoDup.
Qed.

(** X15. The command the script starts for a profile carries the rates
    the table gives for that profile and the pixel format of the command
    line: [-b:v], [-maxrate], [-bufsize], [-b:a], [-ar] and [-pix_fmt]. *)
Theorem profile_rates_reach_command argv args i cmd :
  parse_args int argv = Ok args ->
  nth_error (spawned (fst (script argv))) i = Some cmd ->
  exists name opts pix,
    nth_error (selected (resolutions_arg args)) i = Some (name, opts)
    /\ lookup name resolutions = Some opts
    /\ values "-b:v" cmd = [bitrate opts]
    /\ values "-maxrate" cmd = [maxrate opts]
    /\ values "-bufsize" cmd = [bufsize opts]
    /\ values "-b:a" cmd = [audio opts]
    /\ values "-ar" cmd = [str_of_int (sample_rate opts)]
    /\ pix_fmt args = Str pix
    /\ values "-pix_fmt" cmd = [pix].
Proof.
  intros Hparse Hcmd.
  destruct (started_pix_fmt _ _ _ _ _ _ _ Hparse Hcmd) as [pix Hpix].
  rewrite (script_spawned _ _ _ _ _ Hparse) in Hcmd.
  destruct (for_each_reached script_dir subprocess_run args pix Hpix
              _ [] i cmd Hcmd)
    as [[[name opts] [Hnth ->]] _].
  exists name, opts, pix. split; [exact Hnth|]. split.
  - apply nth_error_In in Hnth. unfold selected in Hnth.
    destruct (str_in "all" (resolutions_arg args)).
    + exact (In_lookup _ _ _ resolutions_NoDup Hnth).
    + now apply comprehension_entries in Hnth.
  - unfold profile_cmd. rewrite Hpix. cbn [format_value].
    destruct (truthy (soft args)) eqn:Hs.
    + rewrite (ffmpeg_cmd_soft _ _ _ _ _ _ _ _ _ _ _ _ _ _ _ _ _ _ Hs).
      repeat split; reflexivity.
    + rewrite (ffmpeg_cmd_no_soft _ _ _ _ _ _ _ _ _ _ _ _ _ _ _ _ _ _ Hs).
      repeat split; reflexivity.
Qed.

End RunMore.

Lemma start_failure_stops_run_witness :
  parse_args decimal sample_argv = Ok sample_args
  /\ nth_error (spawned (fst (main decimal sample_dir second_raises
                                   sample_argv))) 1
     = Some (profile_cmd sample_dir sample_args profile_480p)
  /\ second_raises 1 (profile_cmd sample_dir sample_args profile_480p)
     = raised
  /\ snd (main decimal sample_dir second_raises sample_argv) = 1%Z
  /\ List.length (spawned (fst (main decimal sample_dir second_raises
                                     sample_argv))) = 2%nat.
Proof.
  split; [reflexivity|]. split; [reflexivity|]. split; [reflexivity|].
  destruct (start_failure_stops_run decimal sample_dir second_raises
              sample_argv sample_args 1
              (profile_cmd sample_dir sample_args profile_480p))
    as [H1 [H2 _]].
  - reflexivity.
  - reflexivity.
  - reflexivity.
  - split; [now rewrite H1 | exact H2].
Defined.

Lemma children_count_witness :
  parse_args decimal sample_argv = Ok sample_args
  /\ (List.length (spawned (fst (main decimal sample_dir first_fails
                                      sample_argv))) <= 3 <= 4)%nat
  /\ (1 <= List.length (spawned (fst (main decimal sample_dir first_fails
                                           sample_argv))))%nat.
Proof.
  split; [reflexivity|].
  exact (children_count decimal sample_dir first_fails sample_argv
           sample_args eq_refl).
Defined.

Lemma output_files_distinct_witness :
  parse_args decimal sample_argv = Ok sample_args
  /\ NoDup (output_files (fst (main decimal sample_dir all_succeed
                                    sample_argv))).
Proof.
  split; [reflexivity|].
  apply (output_files_distinct decimal sample_dir all_succeed sample_argv
           sample_args).
  reflexivity.
Defined.

Lemma profile_rates_reach_command_witness :
  parse_args decimal sample_argv = Ok sample_args
  /\ nth_error (spawned (fst (main decimal sample_dir all_succeed
                                   sample_argv))) 1
     = Some (profile_cmd sample_dir sample_args profile_480p)
  /\ values "-b:v" (profile_cmd sample_dir sample_args profile_480p)
     = ["1000k"].
Proof.
  split; [reflexivity|]. split; [reflexivity|].
  destruct (profile_rates_reach_command decimal sample_dir all_succeed
              sample_argv sample_args 1
              (profile_cmd sample_dir sample_args profile_480p))
    as [name [opts [pix [Hn [_ [Hb _]]]]]].
  - reflexivity.
  - reflexivity.
  - injection Hn as <- <-. exact Hb.
Defined.
